(** * Semantic Workbench: the Chat view and the .NET example connector

    A shallow embedding of

    - [workbench-app/src/components/FrontDoor/Chat/Chat.tsx]: the
      [conversationAssistants] memo, the [conversation.updated] subscription
      effect, the render guards and [otherParticipants];
    - [examples/dotnet/dotnet-03-simple-chatbot/MyWorkbenchConnector.cs]:
      [CreateAgentAsync].

    Calls into collaborators ([assistantsRefetch], [refetchConversation],
    agent construction and start) are recorded in a trace of [Call]s, in
    program order, so that "exactly one call" and "no call" are statements
    about that trace. *)

From stdpp Require Import base option list sorting strings gmap fin_maps.
From Stdlib Require Import ZArith Lia.

Open Scope Z_scope.

(** ** Data model *)

(** [ConversationParticipant]: the three fields that [Chat.tsx] reads. *)
Module Participant.
Record t := mk { id : string; role : string; active : bool }.
#[global] Instance participant_eq_dec : EqDecision t.
Proof. solve_decision. Defined.
End Participant.

(** [Assistant]: an entry of the assistant directory. *)
Module Assistant.
Record t := mk { id : string; name : string }.
#[global] Instance assistant_eq_dec : EqDecision t.
Proof. solve_decision. Defined.
End Assistant.

(** Identity of a function object handed out by [useHistoryUtility]; React
    compares dependencies with [Object.is], so only the identity matters. *)
Abbreviation FnId := nat.

(** Calls that leave the component or the connector. *)
Inductive Call :=
  | AssistantsRefetch
  | RefetchConversation (fn : FnId)
  | OtherListener (tag : nat) (data : string)
  | LogDebug (msg : string)
  | CreateInstance (agentId agentName : string)
  | StartAsync (agentId : string).

#[global] Instance Call_eq_dec : EqDecision Call.
Proof. solve_decision. Defined.

(** ** [Array.prototype.sort] with a comparator

    The array is sorted by a stable insertion sort: [x] goes in front of the
    first element [y] with [comparefn x y <= 0]. *)
Section ArraySort.
Context {A : Type} (comparefn : A → A → Z).

Fixpoint sort_insert (x : A) (l : list A) : list A :=
  match l with
  | [] => [x]
  | y :: l' => if comparefn x y <=? 0 then x :: l else y :: sort_insert x l'
  end.

Fixpoint Array_sort (l : list A) : list A :=
  match l with
  | [] => []
  | x :: l' => sort_insert x (Array_sort l')
  end.
End ArraySort.

(** ** [conversationAssistants] (Chat.tsx, lines 173-200) *)
Section ConversationAssistants.
(** [String.prototype.localeCompare] is the runtime's collation. *)
Variable localeCompare : string → string → Z.

(** [!p.active || p.role !== 'assistant'] is the [continue] test; this is
    its negation. *)
Definition isActiveAssistant (p : Participant.t) : bool :=
  Participant.active p && String.eqb (Participant.role p) "assistant".

(** [assistants.find((assistant) => assistant.id === conversationParticipant.id)] *)
Definition findAssistant (assistants : list Assistant.t) (p : Participant.t)
  : option Assistant.t :=
  find (λ assistant, String.eqb (Assistant.id assistant) (Participant.id p)) assistants.

(** The [for ... of] loop. [results] is the array built so far. The loop
    either runs to the end and yields the array, or stops at a miss after
    calling [assistantsRefetch()], and then the memo's value is
    [undefined]. *)
Fixpoint assistantsLoop (assistants : list Assistant.t)
    (participants : list Participant.t) (results : list Assistant.t)
  : list Call * option (list Assistant.t) :=
  match participants with
  | [] => ([], Some results)
  | conversationParticipant :: rest =>
      if negb (isActiveAssistant conversationParticipant)
      then assistantsLoop assistants rest results
      else match findAssistant assistants conversationParticipant with
           | Some assistant => assistantsLoop assistants rest (results ++ [assistant])
           | None => ([AssistantsRefetch], None)
           end
  end.

Definition byName (a b : Assistant.t) : Z :=
  localeCompare (Assistant.name a) (Assistant.name b).

(** The memo's callback. Arguments are [None] while the hook has not
    delivered them ([undefined]); an array, even an empty one, is truthy.
    The value is [None] for [undefined]. *)
Definition conversationAssistants
    (conversationParticipants : option (list Participant.t))
    (assistants : option (list Assistant.t))
  : list Call * option (list Assistant.t) :=
  match conversationParticipants, assistants with
  | Some participants, Some directory =>
      match assistantsLoop directory participants [] with
      | (calls, Some results) => (calls, Some (Array_sort byName results))
      | (calls, None) => (calls, None)
      end
  | _, _ => ([], Some [])
  end.

(** What the loop is meant to collect: the directory entry of every active
    assistant participant, in participant order. *)
Definition resolved (assistants : list Assistant.t) (participants : list Participant.t)
  : list Assistant.t :=
  omap (findAssistant assistants) (filter (λ p, isActiveAssistant p = true) participants).

Definition allResolvable (assistants : list Assistant.t) (participants : list Participant.t)
  : Prop :=
  ∀ p, p ∈ participants → isActiveAssistant p = true →
       ∃ a, a ∈ assistants ∧ Assistant.id a = Participant.id p.

Definition someUnresolvable (assistants : list Assistant.t) (participants : list Participant.t)
  : Prop :=
  ∃ p, p ∈ participants ∧ isActiveAssistant p = true ∧
       ∀ a, a ∈ assistants → Assistant.id a ≠ Participant.id p.
End ConversationAssistants.

(** A concrete collation for examples: code-unit order. *)
Fixpoint codeUnitCompare (a b : string) : Z :=
  match a, b with
  | EmptyString, EmptyString => 0
  | EmptyString, String _ _ => -1
  | String _ _, EmptyString => 1
  | String x a', String y b' =>
      if (Ascii.nat_of_ascii x <? Ascii.nat_of_ascii y)%nat then -1
      else if (Ascii.nat_of_ascii y <? Ascii.nat_of_ascii x)%nat then 1
      else codeUnitCompare a' b'
  end.

(** ** The render function of [Chat] (Chat.tsx, lines 122-285) *)

Module Conversation.
Record t := mk { id : string; title : string; conversationPermission : string }.
End Conversation.

(** What [<ParticipantAvatarGroup>] is given in the header. *)
Inductive AvatarLayout := Spread | Pie.

(** The parts of the rendered tree that depend on the data. *)
Record ChatView := mkChatView {
  readOnly : bool;
  avatarGroup : option (AvatarLayout * list Participant.t);
  canvasAssistants : option (list Assistant.t);
}.

Inductive Rendered :=
  | Throws (message : string)
  | LoadingView
  | View (v : ChatView).

Section Chat.
Context {Message File Capabilities HistoryError : Type}.
Variable localeCompare : string → string → Z.
(** [JSON.stringify], on the error object of the data layer. *)
Variable JSON_stringify : HistoryError → string.
(** [sortParticipants], from [useParticipantUtility]. *)
Variable sortParticipants : list Participant.t → list Participant.t.

(** What [useHistoryUtility(conversationId)] returns. A resource that is
    [undefined] is [None]; objects and arrays are truthy when present.
    [error] and [isLoading] carry the names the component binds them to. *)
Record HistoryUtility := mkHistoryUtility {
  conversation : option Conversation.t;
  allConversationMessages : option (list Message);
  conversationParticipants : option (list Participant.t);
  assistants : option (list Assistant.t);
  conversationFiles : option (list File);
  assistantCapabilities : option Capabilities;
  historyError : option HistoryError;
  historyIsLoading : bool;
  assistantCapabilitiesIsFetching : bool;
  refetchConversation : FnId;
}.

(** [sortParticipants(conversationParticipants).filter((participant) =>
    participant.id !== localUserId)]; the store's [localUser.id] may be
    unset, and then no id is strictly equal to it. *)
Definition isOther (localUserId : option string) (participant : Participant.t) : bool :=
  match localUserId with
  | Some uid => negb (String.eqb (Participant.id participant) uid)
  | None => true
  end.

Definition otherParticipants (conversationParticipants : list Participant.t)
    (localUserId : option string) : list Participant.t :=
  List.filter (isOther localUserId) (sortParticipants conversationParticipants).

Definition headerAvatars (others : list Participant.t)
  : option (AvatarLayout * list Participant.t) :=
  match others with
  | [] => None
  | [_] => Some (Spread, others)
  | _ => Some (Pie, others)
  end.

(** One render pass in which the memo is recomputed. The calls made while
    rendering come with the outcome. *)
Definition Chat (conversationId : string) (localUserId : option string)
    (h : HistoryUtility) : list Call * Rendered :=
  match historyError h with
  | Some e =>
      ([], Throws ("Error loading conversation (" +:+ conversationId +:+ "): "
                   +:+ JSON_stringify e))
  | None =>
      let '(calls, memo) :=
        conversationAssistants localeCompare (conversationParticipants h) (assistants h) in
      if historyIsLoading h || assistantCapabilitiesIsFetching h then (calls, LoadingView)
      else
        match conversation h with
        | None => (calls, Throws ("Conversation (" +:+ conversationId +:+ ") not found"))
        | Some conv =>
        match allConversationMessages h with
        | None => (calls, Throws ("All conversation messages (" +:+ conversationId
                                  +:+ ") not found"))
        | Some _ =>
        match conversationParticipants h with
        | None => (calls, Throws ("Conversation participants (" +:+ conversationId
                                  +:+ ") not found"))
        | Some participants =>
        match assistants h with
        | None => (calls, Throws ("Assistants (" +:+ conversationId +:+ ") not found"))
        | Some _ =>
        match conversationFiles h with
        | None => (calls, Throws ("Conversation files (" +:+ conversationId
                                  +:+ ") not found"))
        | Some _ =>
            (calls,
             View {| readOnly := String.eqb (Conversation.conversationPermission conv) "read";
                     avatarGroup := headerAvatars (otherParticipants participants localUserId);
                     canvasAssistants := memo |})
        end end end end end
  end.

Definition throws (r : list Call * Rendered) : Prop := ∃ message, r.2 = Throws message.

(** The five resources whose absence is checked after the loading guard. *)
Definition resourceMissing (h : HistoryUtility) : Prop :=
  conversation h = None ∨ allConversationMessages h = None ∨
  conversationParticipants h = None ∨ assistants h = None ∨ conversationFiles h = None.
End Chat.

(** [s] occurs in [t]. *)
Definition contains (t s : string) : Prop := ∃ pre post, t = pre +:+ s +:+ post.

(** ** The event bus and the subscription effect (Chat.tsx, lines 149-165) *)

(** [EventSourceMessage] of fetch-event-source. *)
Record EventSourceMessage := mkEvent {
  ev_id : string; ev_event : string; ev_data : string; ev_retry : option Z;
}.

(** A listener is a function object: an identity and a body. The body is
    either the closure [conversationHandler], which captured the
    [refetchConversation] of the render whose effect created it, or a
    listener registered by somebody else. *)
Inductive ListenerBody :=
  | ConversationHandler (refetchConversation : FnId)
  | Foreign (tag : nat).

Record Listener := mkListener { lid : nat; body : ListenerBody }.

(** [const conversationHandler = async (_event) => { await refetchConversation(); }] *)
Definition conversationHandler (refetchConversation : FnId) (_event : EventSourceMessage)
  : list Call :=
  [RefetchConversation refetchConversation].

Definition invoke (l : Listener) (event : EventSourceMessage) : list Call :=
  match body l with
  | ConversationHandler refetchConversation => conversationHandler refetchConversation event
  | Foreign tag => [OtherListener tag (ev_data event)]
  end.

(** Modelled from the spec: [refetchConversation] of [useHistoryUtility] is
    not among the sources. Section 4.1 has it re-fetch "conversation,
    message, participant, and file state (no incremental/delta protocol)":
    one full request per resource. *)
Inductive Resource := ConversationState | MessageState | ParticipantState | FileState.

Inductive Request :=
  | FullFetch (r : Resource)
  | DeltaFetch (r : Resource) (since : nat).

Definition refetchConversation_requests : list Request :=
  [FullFetch ConversationState; FullFetch MessageState;
   FullFetch ParticipantState; FullFetch FileState].

Definition requestsOf (c : Call) : list Request :=
  match c with
  | RefetchConversation _ => refetchConversation_requests
  | _ => []
  end.

(** Modelled from the spec: [workbenchConversationEvents] (routes/FrontDoor)
    is not among the sources. Section 6 describes "a named event channel ...
    consumed via add/remove-listener semantics": listeners are kept per event
    name in registration order, a function object is registered at most once
    under a name, removing deletes that object, and emitting calls every
    listener registered under the name. *)
Definition listenersOf (eventName : string) (bus : gmap string (list Listener))
  : list Listener :=
  default [] (bus !! eventName).

Definition sameObject (l1 l2 : Listener) : bool := Nat.eqb (lid l1) (lid l2).

Definition addEventListener (eventName : string) (l : Listener)
    (bus : gmap string (list Listener)) : gmap string (list Listener) :=
  if existsb (sameObject l) (listenersOf eventName bus) then bus
  else <[eventName := listenersOf eventName bus ++ [l]]> bus.

Definition removeEventListener (eventName : string) (l : Listener)
    (bus : gmap string (list Listener)) : gmap string (list Listener) :=
  match bus !! eventName with
  | None => bus
  | Some ls => <[eventName := List.filter (λ x, negb (sameObject l x)) ls]> bus
  end.

Definition emit (eventName : string) (event : EventSourceMessage)
    (bus : gmap string (list Listener)) : list Call :=
  flat_map (λ l, invoke l event) (listenersOf eventName bus).

(** The bus together with the allocator of function-object identities. *)
Record World := mkWorld { bus : gmap string (list Listener); nextId : nat }.

(** The effect body. It returns the world and what the returned cleanup
    closes over: the handler to remove, or nothing when the effect returned
    early. *)
Definition subscriptionEffect (historyIsLoading : bool) (refetchConversation : FnId)
    (w : World) : World * option Listener :=
  if historyIsLoading then (w, None)
  else
    let handler := mkListener (nextId w) (ConversationHandler refetchConversation) in
    (mkWorld (addEventListener "conversation.updated" handler (bus w)) (S (nextId w)),
     Some handler).

(** [() => workbenchConversationEvents.removeEventListener('conversation.updated',
    conversationHandler)] *)
Definition runCleanup (cleanup : option Listener) (w : World) : World :=
  match cleanup with
  | None => w
  | Some handler => mkWorld (removeEventListener "conversation.updated" handler (bus w)) (nextId w)
  end.

(** React's contract for [useEffect(f, [historyIsLoading, refetchConversation])]:
    the slot remembers the dependencies of the last run and the cleanup it
    returned. On commit the effect runs when there is no previous run or a
    dependency changed ([Object.is]); the previous cleanup runs first. On
    unmount the cleanup runs and the slot is dropped. *)
Record EffectSlot := mkSlot {
  slotDeps : option (bool * FnId);
  slotCleanup : option Listener;
}.

Definition unmounted : EffectSlot := mkSlot None None.

Definition sameDeps (d : option (bool * FnId)) (historyIsLoading : bool)
    (refetchConversation : FnId) : bool :=
  match d with
  | Some (l, r) => Bool.eqb l historyIsLoading && Nat.eqb r refetchConversation
  | None => false
  end.

Definition commit (historyIsLoading : bool) (refetchConversation : FnId)
    (s : EffectSlot * World) : EffectSlot * World :=
  if sameDeps (slotDeps s.1) historyIsLoading refetchConversation then s
  else
    let w1 := runCleanup (slotCleanup s.1) s.2 in
    let '(w2, cleanup) := subscriptionEffect historyIsLoading refetchConversation w1 in
    (mkSlot (Some (historyIsLoading, refetchConversation)) cleanup, w2).

Definition unmount (s : EffectSlot * World) : EffectSlot * World :=
  (unmounted, runCleanup (slotCleanup s.1) s.2).

(** What can happen to a mounted view: a render is committed with the given
    dependencies, the view is unmounted (also what the error boundary does
    after a render that throws), or the bus delivers an event. *)
Inductive Step :=
  | Commit (historyIsLoading : bool) (refetchConversation : FnId)
  | Unmount
  | Emit (eventName : string) (event : EventSourceMessage).

Definition step (st : Step) (s : EffectSlot * World) : (EffectSlot * World) * list Call :=
  match st with
  | Commit historyIsLoading refetchConversation =>
      (commit historyIsLoading refetchConversation s, [])
  | Unmount => (unmount s, [])
  | Emit eventName event => (s, emit eventName event (bus s.2))
  end.

Fixpoint run (steps : list Step) (s : EffectSlot * World)
  : (EffectSlot * World) * list Call :=
  match steps with
  | [] => (s, [])
  | st :: rest =>
      let '(s1, calls1) := step st s in
      let '(s2, calls2) := run rest s1 in
      (s2, calls1 ++ calls2)
  end.

(** The subscription a history of steps should leave behind, read off the
    steps alone: the [refetchConversation] of the last commit, if the view
    is still mounted and that commit had [historyIsLoading = false]. *)
Fixpoint subscribedAfter (steps : list Step) (current : option FnId) : option FnId :=
  match steps with
  | [] => current
  | Commit true _ :: rest => subscribedAfter rest None
  | Commit false r :: rest => subscribedAfter rest (Some r)
  | Unmount :: rest => subscribedAfter rest None
  | Emit _ _ :: rest => subscribedAfter rest current
  end.

(** Listeners under ['conversation.updated'] that were not there at the
    start: function objects allocated since. *)
Definition ownHandlers (w0 w : World) : list Listener :=
  List.filter (λ l, Nat.leb (nextId w0) (lid l)) (listenersOf "conversation.updated" (bus w)).

(** Every registered function object was allocated before [nextId]. *)
Definition allocated (w : World) : Prop :=
  ∀ eventName l, l ∈ listenersOf eventName (bus w) → (lid l < nextId w)%nat.

Definition isRefetch (c : Call) : bool :=
  match c with RefetchConversation _ => true | _ => false end.

(** ** [CreateAgentAsync] (MyWorkbenchConnector.cs, lines 33-61) *)

(** How the returned [Task] ends. *)
Inductive TaskStatus := RanToCompletion | Faulted.

(** [JsonSerializer.Deserialize<MyAgentConfig>(JsonSerializer.Serialize(configData))]:
    it throws, or yields [null], or yields a configuration. *)
Inductive Deserialized (Config : Type) :=
  | JsonThrows
  | JsonNull
  | JsonValue (cfg : Config).
Arguments JsonThrows {Config}.
Arguments JsonNull {Config}.
Arguments JsonValue {Config} cfg.

Section Connector.
Context {Agent Config ConfigData : Type}.
(** [this.DefaultAgentConfig] *)
Variable DefaultAgentConfig : Config.
Variable jsonRoundTrip : ConfigData → Deserialized Config.
(** [ActivatorUtilities.CreateInstance<MyAgent>(sp, agentId, agentName, config,
    appConfig)]; [None] when construction throws. *)
Variable createInstance : string → string → Config → option Agent.
(** Whether [agent.StartAsync] completes. *)
Variable startCompletes : Agent → bool.
(** [this.GetAgent], inherited from [WorkbenchConnector<TAgentConfig>]; it
    reads the connector, of which [Agents] is the part that changes. *)
Variable GetAgent : gmap string Agent → string → option Agent.

(** [ConcurrentDictionary.TryAdd]: adds only when the key is free. *)
Definition TryAdd (key : string) (value : Agent) (Agents : gmap string Agent)
  : gmap string Agent :=
  match Agents !! key with
  | Some _ => Agents
  | None => <[key := value]> Agents
  end.

Definition CreateAgentAsync (Agents : gmap string Agent) (agentId : string)
    (name : option string) (configData : option ConfigData)
  : gmap string Agent * list Call * TaskStatus :=
  match GetAgent Agents agentId with
  | Some _ => (Agents, [], RanToCompletion)
  | None =>
      let log := LogDebug ("Creating agent '" +:+ agentId +:+ "'") in
      let config :=
        match configData with
        | None => Some DefaultAgentConfig
        | Some data =>
            match jsonRoundTrip data with
            | JsonThrows => None
            | JsonNull => Some DefaultAgentConfig
            | JsonValue newCfg => Some newCfg
            end
        end in
      match config with
      | None => (Agents, [log], Faulted)
      | Some config =>
          let agentName := default agentId name in
          match createInstance agentId agentName config with
          | None => (Agents, [log; CreateInstance agentId agentName], Faulted)
          | Some agent =>
              if startCompletes agent
              then (TryAdd agentId agent Agents,
                    [log; CreateInstance agentId agentName; StartAsync agentId],
                    RanToCompletion)
              else (Agents,
                    [log; CreateInstance agentId agentName; StartAsync agentId],
                    Faulted)
          end
      end
  end.

(** [await CreateAgentAsync(agentId, name, data); await CreateAgentAsync(agentId,
    name', data')]: the second call is reached when the first task completes. *)
Definition CreateAgentAsync_twice (Agents : gmap string Agent) (agentId : string)
    (name : option string) (configData : option ConfigData)
    (name' : option string) (configData' : option ConfigData)
  : gmap string Agent * list Call * TaskStatus :=
  match CreateAgentAsync Agents agentId name configData with
  | (Agents1, calls1, Faulted) => (Agents1, calls1, Faulted)
  | (Agents1, calls1, RanToCompletion) =>
      let '(Agents2, calls2, status2) := CreateAgentAsync Agents1 agentId name' configData' in
      (Agents2, calls1 ++ calls2, status2)
  end.
End Connector.

(** The invariant of the subscription: seen from a start [w0], with [cur]
    the subscription the steps so far should have left. Nothing but the
    handler the cleanup closes over has been added to the bus, and that
    handler is there exactly when [cur] says so. *)
Definition slotAgrees (w0 : World) (cur : option FnId) (s : EffectSlot * World) : Prop :=
  match cur with
  | Some r =>
      ∃ h, slotCleanup s.1 = Some h ∧ body h = ConversationHandler r
           ∧ (nextId w0 ≤ lid h < nextId s.2)%nat
           ∧ slotDeps s.1 = Some (false, r)
  | None =>
      slotCleanup s.1 = None ∧ (slotDeps s.1 = None ∨ ∃ r, slotDeps s.1 = Some (true, r))
  end.

Record subscriptionInv (w0 : World) (cur : option FnId) (s : EffectSlot * World) : Prop :=
  mkSubscriptionInv {
  inv_allocated : allocated s.2;
  inv_next : (nextId w0 ≤ nextId s.2)%nat;
  inv_others : ∀ eventName, eventName ≠ "conversation.updated" →
      listenersOf eventName (bus s.2) = listenersOf eventName (bus w0);
  inv_updated : listenersOf "conversation.updated" (bus s.2)
      = listenersOf "conversation.updated" (bus w0) ++ option_list (slotCleanup s.1);
  inv_slot : slotAgrees w0 cur s;
}.

(** What one event adds to the calls of the listeners that were there at the
    start. *)
Definition ownCalls (cur : option FnId) (event : EventSourceMessage) : list Call :=
  match cur with
  | Some r => conversationHandler r event
  | None => []
  end.

(** ** Concrete inputs used by the examples *)

(** The scenario of the specification. *)
Definition scenarioParticipants : list Participant.t :=
  [Participant.mk "u1" "user" true;
   Participant.mk "a1" "assistant" true;
   Participant.mk "a2" "assistant" false].

Definition scenarioAssistants : list Assistant.t := [Assistant.mk "a1" "Bravo"].

Definition missParticipants : list Participant.t :=
  [Participant.mk "a1" "assistant" true;
   Participant.mk "a7" "assistant" true;
   Participant.mk "a8" "assistant" true].

(** A view whose history has loaded without error and without any resource,
    while the assistant capabilities are still being fetched. *)
Definition stillFetching : @HistoryUtility unit unit unit string :=
  mkHistoryUtility None None None None None None None false true 0%nat.

(** A view whose history failed to load. *)
Definition failedLoad : @HistoryUtility unit unit unit string :=
  mkHistoryUtility None None None None None None (Some "{status:500}") false false 0%nat.

(** A loaded view in which only the files are absent. *)
Definition filesMissing : @HistoryUtility unit unit unit string :=
  mkHistoryUtility (Some (Conversation.mk "c1" "Title" "read_write")) (Some [])
    (Some scenarioParticipants) (Some scenarioAssistants) None None None false false 0%nat.

(** A bus on which somebody else already listens, an event, and a history
    of a view: mounted while loading, loaded, an event, a re-render with a
    new [refetchConversation]. *)
Definition busyWorld : World :=
  mkWorld {[ "conversation.updated" := [mkListener 0 (Foreign 7)] ]} 1.

Definition sampleEvent : EventSourceMessage :=
  mkEvent "42" "conversation.updated" "{}" None.

Definition sampleSteps : list Step :=
  [Commit true 5%nat; Commit false 5%nat;
   Emit "conversation.updated" sampleEvent; Commit false 6%nat].

(** A connector whose agents are (id, name, configuration) triples, whose
    configuration data deserialises to itself, whose agents always construct
    and start, and whose [GetAgent] reads [Agents]. *)
Definition sampleCreate (Agents : gmap string (string * string * nat)) (agentId : string)
    (name : option string) (configData : option nat)
  : gmap string (string * string * nat) * list Call * TaskStatus :=
  CreateAgentAsync 0%nat JsonValue (λ i n c, Some (i, n, c)) (λ _, true)
    (λ Agents i, Agents !! i) Agents agentId name configData.

(** The scenario's participants in another order, and a directory with a
    second entry for the same id. *)
Definition scenarioReordered : list Participant.t :=
  [Participant.mk "a1" "assistant" true;
   Participant.mk "u1" "user" true;
   Participant.mk "a2" "assistant" false].

Definition shadowAssistants : list Assistant.t := [Assistant.mk "a1" "Shadow"].

(** A loaded view whose directory lacks an active assistant participant. *)
Definition loadedWithMiss : @HistoryUtility unit unit unit string :=
  mkHistoryUtility (Some (Conversation.mk "c1" "Title" "read")) (Some [])
    (Some missParticipants) (Some scenarioAssistants) (Some []) None None false false 0%nat.

(** The calls a history of steps should cause, read off the steps and the
    listeners of the start alone: an event reaches the listeners that were
    registered under its name at the start and, if it is
    ['conversation.updated'] and the view is subscribed, the handler of the
    view. *)
Definition isUpdated (eventName : string) : bool :=
  String.eqb eventName "conversation.updated".

Fixpoint expectedCalls (bus0 : gmap string (list Listener)) (steps : list Step)
    (cur : option FnId) : list Call :=
  match steps with
  | [] => []
  | Emit eventName event :: rest =>
      emit eventName event bus0
      ++ (if isUpdated eventName then ownCalls cur event else [])
      ++ expectedCalls bus0 rest cur
  | st :: rest => expectedCalls bus0 rest (subscribedAfter [st] cur)
  end.

Definition isEmitUpdated (st : Step) : bool :=
  match st with
  | Emit eventName _ => isUpdated eventName
  | _ => false
  end.

(** A bus without listeners. *)
Definition quietWorld : World := mkWorld ∅ 0.

(** * Properties *)

(** ** Sorting *)
Section ArraySortFacts.
Context {A : Type} (comparefn : A → A → Z).

Lemma sort_insert_perm x l : sort_insert comparefn x l ≡ₚ x :: l.
Proof.
  induction l as [|y l IH]; simpl; [done|].
  destruct (comparefn x y <=? 0); [done|].
  rewrite IH. apply Permutation_swap.
Qed.

Lemma Array_sort_perm l : Array_sort comparefn l ≡ₚ l.
Proof.
  induction l as [|x l IH]; simpl; [done|].
  by rewrite sort_insert_perm, IH.
Qed.

Hypothesis comparefn_total : ∀ a b, comparefn a b ≤ 0 ∨ comparefn b a ≤ 0.
Hypothesis comparefn_trans :
  ∀ a b c, comparefn a b ≤ 0 → comparefn b c ≤ 0 → comparefn a c ≤ 0.

Lemma sort_insert_sorted x l :
  StronglySorted (λ a b, comparefn a b ≤ 0) l →
  StronglySorted (λ a b, comparefn a b ≤ 0) (sort_insert comparefn x l).
Proof.
  induction 1 as [|y l Hl IH Hy]; simpl.
  - repeat constructor.
  - destruct (Z.leb_spec (comparefn x y) 0) as [Hxy|Hxy].
    + constructor; [by constructor|].
      constructor; [done|].
      eapply Forall_impl; [exact Hy|]. intros z Hz. by eapply comparefn_trans.
    + constructor; [done|].
      rewrite sort_insert_perm. constructor; [|done].
      destruct (comparefn_total x y); [lia|done].
Qed.

Lemma Array_sort_sorted l :
  StronglySorted (λ a b, comparefn a b ≤ 0) (Array_sort comparefn l).
Proof.
  induction l as [|x l IH]; simpl; [constructor|]. by apply sort_insert_sorted.
Qed.
End ArraySortFacts.

(** The code-unit collation is a consistent comparator. *)
Lemma codeUnitCompare_total a b : codeUnitCompare a b ≤ 0 ∨ codeUnitCompare b a ≤ 0.
Proof.
  revert b. induction a as [|x a IH]; intros [|y b]; simpl; try lia.
  destruct (Nat.ltb_spec (Ascii.nat_of_ascii x) (Ascii.nat_of_ascii y));
    destruct (Nat.ltb_spec (Ascii.nat_of_ascii y) (Ascii.nat_of_ascii x));
    try lia. apply IH.
Qed.

Lemma codeUnitCompare_trans a b c :
  codeUnitCompare a b ≤ 0 → codeUnitCompare b c ≤ 0 → codeUnitCompare a c ≤ 0.
Proof.
  revert b c. induction a as [|x a IH]; intros [|y b] [|z c]; simpl; try lia.
  destruct (Nat.ltb_spec (Ascii.nat_of_ascii x) (Ascii.nat_of_ascii y));
    destruct (Nat.ltb_spec (Ascii.nat_of_ascii y) (Ascii.nat_of_ascii x));
    destruct (Nat.ltb_spec (Ascii.nat_of_ascii y) (Ascii.nat_of_ascii z));
    destruct (Nat.ltb_spec (Ascii.nat_of_ascii z) (Ascii.nat_of_ascii y));
    destruct (Nat.ltb_spec (Ascii.nat_of_ascii x) (Ascii.nat_of_ascii z));
    destruct (Nat.ltb_spec (Ascii.nat_of_ascii z) (Ascii.nat_of_ascii x));
    try lia. apply IH.
Qed.

(** ** The assistant list *)
Section ConversationAssistantsFacts.
Implicit Types (A : list Assistant.t) (P : list Participant.t) (p : Participant.t).

Lemma findAssistant_Some A p a :
  findAssistant A p = Some a → a ∈ A ∧ Assistant.id a = Participant.id p.
Proof.
  unfold findAssistant. intros [Hin Heq]%find_some.
  split; [by apply list_elem_of_In|]. by apply String.eqb_eq.
Qed.

Lemma findAssistant_None A p :
  findAssistant A p = None ↔ ∀ a, a ∈ A → Assistant.id a ≠ Participant.id p.
Proof.
  unfold findAssistant. split.
  - intros Hnone a Hin%list_elem_of_In.
    apply (find_none _ _ Hnone) in Hin. by apply String.eqb_neq.
  - intros Hall. destruct (find _ A) as [a|] eqn:Hfind; [|done].
    apply find_some in Hfind as [Hin Heq]. apply String.eqb_eq in Heq.
    apply list_elem_of_In in Hin. by destruct (Hall a Hin).
Qed.

Lemma findAssistant_is_Some A p :
  (∃ a, a ∈ A ∧ Assistant.id a = Participant.id p) → is_Some (findAssistant A p).
Proof.
  intros (a & Hin & Heq). destruct (findAssistant A p) eqn:Hf; [by eexists|].
  rewrite findAssistant_None in Hf. by destruct (Hf a Hin).
Qed.

Lemma allResolvable_cons A p P :
  allResolvable A (p :: P) →
  (isActiveAssistant p = true → is_Some (findAssistant A p)) ∧ allResolvable A P.
Proof.
  intros H. split.
  - intros Hp. apply findAssistant_is_Some, H; [left|done].
  - intros q Hq. apply H. by right.
Qed.

Lemma resolved_cons A p P :
  resolved A (p :: P) =
  if isActiveAssistant p
  then match findAssistant A p with
       | Some a => a :: resolved A P
       | None => resolved A P
       end
  else resolved A P.
Proof.
  unfold resolved. rewrite filter_cons.
  destruct (isActiveAssistant p); simpl; [|done].
  by destruct (findAssistant A p).
Qed.

(** With every active assistant resolvable the loop runs to the end, makes
    no call, and has appended the resolved entries in participant order. *)
Lemma assistantsLoop_resolved A P results :
  allResolvable A P →
  assistantsLoop A P results = ([], Some (results ++ resolved A P)).
Proof.
  revert results. induction P as [|p P IH]; intros results Hres.
  - simpl. by rewrite app_nil_r.
  - apply allResolvable_cons in Hres as [Hp HP].
    rewrite resolved_cons. simpl.
    destruct (isActiveAssistant p); simpl; [|by apply IH].
    destruct (Hp eq_refl) as [a Ha]. rewrite Ha.
    rewrite IH by done. by rewrite <- app_assoc.
Qed.

(** With an unresolvable active assistant the loop stops with one call. *)
Lemma assistantsLoop_miss A P results :
  someUnresolvable A P →
  assistantsLoop A P results = ([AssistantsRefetch], None).
Proof.
  revert results. induction P as [|p P IH]; intros results (q & Hin & Hact & Hmiss).
  - by apply elem_of_nil in Hin.
  - simpl. destruct (isActiveAssistant p) eqn:Hp; simpl.
    + destruct (findAssistant A p) as [a|] eqn:Hfind; [|done].
      apply IH. exists q. split_and!; [|done..].
      apply elem_of_cons in Hin as [->|Hin]; [|done].
      apply findAssistant_None in Hmiss. congruence.
    + apply IH. exists q. split_and!; [|done..].
      apply elem_of_cons in Hin as [->|Hin]; [congruence|done].
Qed.

Lemma resolved_length A P :
  allResolvable A P → length (resolved A P) = length (List.filter isActiveAssistant P).
Proof.
  induction P as [|p P IH]; intros Hres; [done|].
  apply allResolvable_cons in Hres as [Hp HP].
  rewrite resolved_cons. simpl.
  destruct (isActiveAssistant p); [|by apply IH].
  destruct (Hp eq_refl) as [a Ha]. rewrite Ha. simpl. by rewrite IH.
Qed.

Lemma elem_of_resolved A P a :
  a ∈ resolved A P ↔
  ∃ p, p ∈ P ∧ isActiveAssistant p = true ∧ findAssistant A p = Some a.
Proof.
  unfold resolved. rewrite list_elem_of_omap.
  split.
  - intros (p & [Hact Hin]%list_elem_of_filter & Hf). by exists p.
  - intros (p & Hin & Hact & Hf). exists p. split; [|done].
    by apply list_elem_of_filter.
Qed.
End ConversationAssistantsFacts.

Example scenario :
  conversationAssistants codeUnitCompare (Some scenarioParticipants) (Some scenarioAssistants)
  = ([], Some [Assistant.mk "a1" "Bravo"]).
Proof. reflexivity. Qed.

Example scenario_sorts :
  conversationAssistants codeUnitCompare
    (Some [Participant.mk "a3" "assistant" true; Participant.mk "a1" "assistant" true;
           Participant.mk "a2" "assistant" true])
    (Some [Assistant.mk "a1" "Bravo"; Assistant.mk "a2" "Alpha"; Assistant.mk "a3" "Charlie"])
  = ([], Some [Assistant.mk "a2" "Alpha"; Assistant.mk "a1" "Bravo";
               Assistant.mk "a3" "Charlie"]).
Proof. reflexivity. Qed.

Lemma scenario_allResolvable : allResolvable scenarioAssistants scenarioParticipants.
Proof.
  intros p Hin Hact. apply list_elem_of_In in Hin. simpl in Hin.
  destruct Hin as [<-|[<-|[<-|[]]]]; try discriminate Hact.
  exists (Assistant.mk "a1" "Bravo"). split; [left|reflexivity].
Qed.

(** C1. When every active, assistant-role participant has a directory entry
    with its id, [conversationAssistants] makes no call and returns a list
    that is a rearrangement of the directory entries found for those
    participants -- every member is the entry [find] yields for some active
    assistant participant, and conversely -- whose length is the number of
    active assistant-role participants, and which is ascending by name for a
    [localeCompare] that is a consistent comparator. *)
Theorem conversationAssistants_resolved
    (localeCompare : string → string → Z)
    (localeCompare_total : ∀ a b, localeCompare a b ≤ 0 ∨ localeCompare b a ≤ 0)
    (localeCompare_trans :
       ∀ a b c, localeCompare a b ≤ 0 → localeCompare b c ≤ 0 → localeCompare a c ≤ 0)
    (P : list Participant.t) (A : list Assistant.t) :
  allResolvable A P →
  ∃ results,
    conversationAssistants localeCompare (Some P) (Some A) = ([], Some results)
    ∧ results ≡ₚ resolved A P
    ∧ (∀ a, a ∈ results ↔
            ∃ p, p ∈ P ∧ isActiveAssistant p = true ∧ findAssistant A p = Some a)
    ∧ (∀ a, a ∈ results →
            a ∈ A ∧ ∃ p, p ∈ P ∧ Participant.active p = true
                         ∧ Participant.role p = "assistant"
                         ∧ Assistant.id a = Participant.id p)
    ∧ length results = length (List.filter isActiveAssistant P)
    ∧ StronglySorted
        (λ a b, localeCompare (Assistant.name a) (Assistant.name b) ≤ 0) results.
Proof.
  intros Hres. exists (Array_sort (byName localeCompare) (resolved A P)).
  assert (Hperm : Array_sort (byName localeCompare) (resolved A P) ≡ₚ resolved A P)
    by apply Array_sort_perm.
  split_and!.
  - unfold conversationAssistants. by rewrite assistantsLoop_resolved.
  - done.
  - intros a. by rewrite Hperm, elem_of_resolved.
  - intros a. rewrite Hperm, elem_of_resolved.
    intros (p & Hin & Hact & [HA Hid]%findAssistant_Some).
    split; [done|]. exists p. unfold isActiveAssistant in Hact.
    apply andb_true_iff in Hact as [Hact Hrole]. apply String.eqb_eq in Hrole.
    done.
  - rewrite Hperm. by apply resolved_length.
  - apply (Array_sort_sorted (byName localeCompare)); unfold byName.
    + intros a b. apply localeCompare_total.
    + intros a b c. apply localeCompare_trans.
Qed.

Lemma conversationAssistants_resolved_witness :
  allResolvable scenarioAssistants scenarioParticipants ∧
  ∃ results,
    conversationAssistants codeUnitCompare (Some scenarioParticipants)
      (Some scenarioAssistants) = ([], Some results)
    ∧ length results = 1%nat.
Proof.
  split; [exact scenario_allResolvable|].
  destruct (conversationAssistants_resolved codeUnitCompare codeUnitCompare_total
              codeUnitCompare_trans scenarioParticipants scenarioAssistants
              scenario_allResolvable) as (results & Heq & _ & _ & _ & Hlen & _).
  exists results. split; [exact Heq|exact Hlen].
Defined.

Lemma miss_someUnresolvable : someUnresolvable scenarioAssistants missParticipants.
Proof.
  exists (Participant.mk "a7" "assistant" true). split_and!.
  - right. left.
  - reflexivity.
  - intros a Hin. apply list_elem_of_In in Hin. simpl in Hin.
    destruct Hin as [<-|[]]. discriminate.
Qed.

(** C2. When some active, assistant-role participant has no directory entry
    with its id, [conversationAssistants] returns [undefined] and the pass
    makes exactly one call, to [assistantsRefetch]. It stops at the first
    miss: what follows the first unresolvable participant in the list has no
    influence, and further misses add no further call. *)
Theorem conversationAssistants_miss
    (localeCompare : string → string → Z)
    (P : list Participant.t) (A : list Assistant.t) :
  someUnresolvable A P →
  conversationAssistants localeCompare (Some P) (Some A) = ([AssistantsRefetch], None)
  ∧ ∀ pre p post,
      P = pre ++ p :: post → isActiveAssistant p = true → findAssistant A p = None →
      ∀ post', conversationAssistants localeCompare (Some (pre ++ p :: post')) (Some A)
               = ([AssistantsRefetch], None).
Proof.
  intros Hmiss. split.
  - unfold conversationAssistants. by rewrite assistantsLoop_miss.
  - intros pre p post _ Hact Hnone post'.
    unfold conversationAssistants. rewrite assistantsLoop_miss; [done|].
    exists p. split_and!; [|done|by apply findAssistant_None].
    apply elem_of_app. right. left.
Qed.

Lemma conversationAssistants_miss_witness :
  someUnresolvable scenarioAssistants missParticipants ∧
  conversationAssistants codeUnitCompare (Some missParticipants) (Some scenarioAssistants)
  = ([AssistantsRefetch], None).
Proof.
  split; [exact miss_someUnresolvable|].
  exact (proj1 (conversationAssistants_miss codeUnitCompare missParticipants
                  scenarioAssistants miss_someUnresolvable)).
Defined.

(** C9. While [conversationParticipants] or [assistants] is not loaded,
    [conversationAssistants] returns the empty array and makes no call; a
    directory miss returns [undefined] after one [assistantsRefetch] call, so
    the two cases differ both in value and in calls. *)
Theorem conversationAssistants_not_loaded
    (localeCompare : string → string → Z)
    (conversationParticipants : option (list Participant.t))
    (assistants : option (list Assistant.t)) :
  conversationParticipants = None ∨ assistants = None →
  conversationAssistants localeCompare conversationParticipants assistants = ([], Some [])
  ∧ ∀ P A, someUnresolvable A P →
      conversationAssistants localeCompare (Some P) (Some A) = ([AssistantsRefetch], None)
      ∧ (conversationAssistants localeCompare (Some P) (Some A)).1
        ≠ (conversationAssistants localeCompare conversationParticipants assistants).1
      ∧ (conversationAssistants localeCompare (Some P) (Some A)).2
        ≠ (conversationAssistants localeCompare conversationParticipants assistants).2.
Proof.
  intros Hnone.
  assert (Heq : conversationAssistants localeCompare conversationParticipants assistants
                = ([], Some [])).
  { unfold conversationAssistants.
    destruct Hnone as [-> | ->]; [done|]. by destruct conversationParticipants. }
  split; [done|]. intros P A Hmiss. rewrite Heq.
  unfold conversationAssistants. by rewrite assistantsLoop_miss.
Qed.

Lemma conversationAssistants_not_loaded_witness :
  conversationAssistants codeUnitCompare (Some scenarioParticipants) None = ([], Some []).
Proof.
  exact (proj1 (conversationAssistants_not_loaded codeUnitCompare
                  (Some scenarioParticipants) None (or_intror eq_refl))).
Defined.

(** ** The render function *)

Lemma string_app_nil_r (s : string) : s +:+ "" = s.
Proof.
  induction s as [|c s IH]; [done|].
  change (String c (s +:+ "") = String c s). by rewrite IH.
Qed.

Lemma string_app_assoc (s1 s2 s3 : string) : (s1 +:+ s2) +:+ s3 = s1 +:+ (s2 +:+ s3).
Proof.
  induction s1 as [|c s1 IH]; [done|].
  change (String c ((s1 +:+ s2) +:+ s3) = String c (s1 +:+ (s2 +:+ s3))).
  by rewrite IH.
Qed.

Lemma filter_bool_sublist {A} (f : A → bool) (l : list A) : List.filter f l `sublist_of` l.
Proof.
  induction l as [|x l IH]; simpl; [constructor|].
  destruct (f x); by constructor.
Qed.

Lemma filter_bool_count_occ {A} `{EqDecision A} (f : A → bool) (l : list A) (x : A) :
  f x = true → count_occ (decide_rel (=)) (List.filter f l) x = count_occ (decide_rel (=)) l x.
Proof.
  intros Hx. induction l as [|y l IH]; simpl; [done|].
  destruct (f y) eqn:Hy; simpl.
  - destruct (decide_rel (=) y x); by rewrite IH.
  - destruct (decide_rel (=) y x) as [->|]; [congruence|done].
Qed.

Lemma isOther_true localUserId p :
  isOther localUserId p = true ↔ Some (Participant.id p) ≠ localUserId.
Proof.
  unfold isOther. destruct localUserId as [uid|]; [|done].
  rewrite negb_true_iff, String.eqb_neq. naive_solver.
Qed.

Section ChatFacts.
Context {Message File Capabilities HistoryError : Type}.
Variable localeCompare : string → string → Z.
Variable JSON_stringify : HistoryError → string.
Variable sortParticipants : list Participant.t → list Participant.t.
Implicit Types (h : @HistoryUtility Message File Capabilities HistoryError).

(** C6. [otherParticipants] is the output of [sortParticipants] without the
    entries whose id is the local user id: its members are exactly the
    sorted entries with another id, each as often as [sortParticipants]
    produced it, and it is a subsequence of the sorted list, so the order of
    the utility is kept. *)
Theorem otherParticipants_spec
    (conversationParticipants : list Participant.t) (localUserId : option string) :
  let sorted := sortParticipants conversationParticipants in
  let others := otherParticipants sortParticipants conversationParticipants localUserId in
  (∀ p, p ∈ others ↔ p ∈ sorted ∧ Some (Participant.id p) ≠ localUserId)
  ∧ (∀ p, Some (Participant.id p) ≠ localUserId →
          count_occ (decide_rel (=)) others p = count_occ (decide_rel (=)) sorted p)
  ∧ others `sublist_of` sorted.
Proof.
  intros sorted others. unfold others, otherParticipants. fold sorted. split_and!.
  - intros p. rewrite !list_elem_of_In, filter_In, isOther_true. tauto.
  - intros p Hp. apply filter_bool_count_occ. by apply isOther_true.
  - apply filter_bool_sublist.
Qed.

(** C8. When the history failed to load, the render throws
    [Error loading conversation (<id>): <JSON of the error>] before anything
    else happens: the message holds the conversation id and the serialised
    error, and the pass makes no call at all, so nothing is retried. *)
Theorem Chat_history_error_throws
    (conversationId : string) (localUserId : option string) h (e : HistoryError) :
  historyError h = Some e →
  ∃ message,
    Chat localeCompare JSON_stringify sortParticipants conversationId localUserId h
    = ([], Throws message)
    ∧ message = "Error loading conversation (" +:+ conversationId +:+ "): "
                +:+ JSON_stringify e
    ∧ contains message conversationId
    ∧ contains message (JSON_stringify e).
Proof.
  intros He. eexists. split_and!.
  - unfold Chat. rewrite He. reflexivity.
  - reflexivity.
  - by exists "Error loading conversation (", ("): " +:+ JSON_stringify e).
  - exists ("Error loading conversation (" +:+ conversationId +:+ "): "), "".
    by rewrite string_app_nil_r, !string_app_assoc.
Qed.

(** C7, as amended. When the history did not fail to load, the render throws
    exactly when the loading guard lets it through -- [historyIsLoading] and
    [assistantCapabilitiesIsFetching] are false -- and one of the five
    resources conversation, messages, participants, assistants, files is
    absent. While either flag is set it shows the loading view. *)
Theorem Chat_missing_resource_throws
    (conversationId : string) (localUserId : option string) h :
  historyError h = None →
  (throws (Chat localeCompare JSON_stringify sortParticipants conversationId localUserId h)
   ↔ historyIsLoading h = false ∧ assistantCapabilitiesIsFetching h = false
     ∧ resourceMissing h)
  ∧ (historyIsLoading h = true ∨ assistantCapabilitiesIsFetching h = true →
     (Chat localeCompare JSON_stringify sortParticipants conversationId localUserId h).2
     = LoadingView).
Proof.
  intros He. unfold throws, resourceMissing, Chat. rewrite He.
  destruct (conversationAssistants _ _ _) as [calls memo].
  split.
  - destruct (historyIsLoading h), (assistantCapabilitiesIsFetching h); simpl;
      try (split; [intros [m Hm]; discriminate Hm | intros (? & ? & ?); discriminate]).
    destruct (conversation h), (allConversationMessages h), (conversationParticipants h),
      (assistants h), (conversationFiles h); simpl;
      (split; [intros [m Hm]; try discriminate Hm; split_and!; auto
              | intros (_ & _ & Hmiss); try (by eexists);
                destruct Hmiss as [?|[?|[?|[?|?]]]]; discriminate]).
  - intros [-> | ->]; [done|]. by rewrite orb_true_r.
Qed.
End ChatFacts.

(** C7, as stated, fails: with the history loaded, no error and no resource
    present, the render shows the loading view while the assistant
    capabilities are being fetched. *)
Lemma Chat_missing_resource_counterexample :
  historyIsLoading stillFetching = false
  ∧ historyError stillFetching = None
  ∧ resourceMissing stillFetching
  ∧ Chat codeUnitCompare (λ e, e) (λ ps, ps) "c1" (Some "u1") stillFetching
    = ([], LoadingView)
  ∧ ¬ throws (Chat codeUnitCompare (λ e, e) (λ ps, ps) "c1" (Some "u1") stillFetching).
Proof.
  split_and!; try reflexivity.
  - by left.
  - intros [m Hm]. discriminate Hm.
Qed.

Lemma Chat_missing_resource_throws_witness :
  throws (Chat codeUnitCompare (λ e, e) (λ ps, ps) "c1" (Some "u1") filesMissing).
Proof.
  apply (proj1 (Chat_missing_resource_throws codeUnitCompare (λ e, e) (λ ps, ps) "c1"
                  (Some "u1") filesMissing eq_refl)).
  split_and!; try reflexivity. right. right. right. right. reflexivity.
Defined.

Example filesMissing_message :
  Chat codeUnitCompare (λ e, e) (λ ps, ps) "c1" (Some "u1") filesMissing
  = ([], Throws "Conversation files (c1) not found").
Proof. reflexivity. Qed.

Lemma Chat_history_error_throws_witness :
  Chat codeUnitCompare (λ e, e) (λ ps, ps) "c1" (Some "u1") failedLoad
  = ([], Throws "Error loading conversation (c1): {status:500}").
Proof.
  destruct (Chat_history_error_throws codeUnitCompare (λ e, e) (λ ps, ps) "c1"
              (Some "u1") failedLoad "{status:500}" eq_refl)
    as (message & Heq & Hmsg & _).
  rewrite Heq, Hmsg. reflexivity.
Defined.

Example otherParticipants_scenario :
  otherParticipants (λ ps, ps) scenarioParticipants (Some "a1")
  = [Participant.mk "u1" "user" true; Participant.mk "a2" "assistant" false].
Proof. reflexivity. Qed.

(** ** The subscription *)
Section BusFacts.
Implicit Types (b : gmap string (list Listener)) (l h : Listener).

Lemma listenersOf_add n e l b :
  listenersOf n (addEventListener e l b) =
  if decide (n = e)
  then (if existsb (sameObject l) (listenersOf e b) then listenersOf e b
        else listenersOf e b ++ [l])
  else listenersOf n b.
Proof.
  unfold addEventListener.
  destruct (existsb _ _) eqn:Hex.
  - destruct (decide (n = e)) as [->|]; done.
  - unfold listenersOf at 1. destruct (decide (n = e)) as [->|Hne].
    + by rewrite lookup_insert_eq.
    + by rewrite lookup_insert_ne.
Qed.

Lemma listenersOf_remove n e l b :
  listenersOf n (removeEventListener e l b) =
  if decide (n = e)
  then List.filter (λ x, negb (sameObject l x)) (listenersOf e b)
  else listenersOf n b.
Proof.
  unfold removeEventListener, listenersOf.
  destruct (b !! e) as [ls|] eqn:Hb.
  - destruct (decide (n = e)) as [->|Hne].
    + by rewrite lookup_insert_eq.
    + by rewrite lookup_insert_ne.
  - destruct (decide (n = e)) as [->|Hne]; [|done]. by rewrite Hb.
Qed.

(** A function object that is newer than everything in a list is not in it,
    and removing it from the list changes nothing. *)
Lemma existsb_fresh h (ls : list Listener) k :
  (∀ l, l ∈ ls → (lid l < k)%nat) → (k ≤ lid h)%nat →
  existsb (sameObject h) ls = false.
Proof.
  intros Hold Hnew. induction ls as [|x ls IH]; [done|]. simpl.
  rewrite IH by (intros l Hl; apply Hold; by right).
  assert (lid x < k)%nat by (apply Hold; left).
  unfold sameObject. destruct (Nat.eqb_spec (lid h) (lid x)); [lia|done].
Qed.

Lemma filter_fresh h (ls : list Listener) k :
  (∀ l, l ∈ ls → (lid l < k)%nat) → (k ≤ lid h)%nat →
  List.filter (λ x, negb (sameObject h x)) ls = ls.
Proof.
  intros Hold Hnew. induction ls as [|x ls IH]; [done|]. simpl.
  rewrite IH by (intros l Hl; apply Hold; by right).
  assert (lid x < k)%nat by (apply Hold; left).
  unfold sameObject. destruct (Nat.eqb_spec (lid h) (lid x)); [lia|done].
Qed.

Lemma filter_old (ls : list Listener) k :
  (∀ l, l ∈ ls → (lid l < k)%nat) → List.filter (λ l, Nat.leb k (lid l)) ls = [].
Proof.
  intros Hold. induction ls as [|x ls IH]; [done|]. simpl.
  assert (lid x < k)%nat by (apply Hold; left).
  destruct (Nat.leb_spec k (lid x)); [lia|].
  apply IH. intros l Hl. apply Hold. by right.
Qed.

Lemma filter_remove_last h (ls : list Listener) k :
  (∀ l, l ∈ ls → (lid l < k)%nat) → (k ≤ lid h)%nat →
  List.filter (λ x, negb (sameObject h x)) (ls ++ [h]) = ls.
Proof.
  intros Hold Hnew. rewrite List.filter_app, (filter_fresh h ls k) by done.
  simpl. unfold sameObject. rewrite Nat.eqb_refl. simpl. by rewrite app_nil_r.
Qed.
End BusFacts.

Section SubscriptionFacts.
Variable w0 : World.
Hypothesis w0_allocated : allocated w0.

Lemma inv_init : subscriptionInv w0 None (unmounted, w0).
Proof.
  split; simpl; [done|lia|done| |].
  - by rewrite app_nil_r.
  - split; [done|by left].
Qed.

Lemma unmount_inv cur s : subscriptionInv w0 cur s → subscriptionInv w0 None (unmount s).
Proof.
  destruct s as [slot w]. intros [Halloc Hnext Hoth Hupd Hslot]. simpl in *.
  unfold unmount. simpl.
  destruct (slotCleanup slot) as [h|] eqn:Hc; simpl in *.
  - assert (Hh : (nextId w0 ≤ lid h)%nat).
    { destruct cur as [r|]; simpl in Hslot.
      - destruct Hslot as (h' & Hh' & _ & Hb & _). simplify_eq. lia.
      - destruct Hslot as [Hnone _]. congruence. }
    split; simpl.
    + unfold allocated. simpl. intros n l. rewrite listenersOf_remove.
      destruct (decide _) as [->|]; [|by apply Halloc].
      rewrite list_elem_of_In, filter_In, <- list_elem_of_In.
      intros [Hin _]. by eapply Halloc.
    + done.
    + intros n Hn. rewrite listenersOf_remove.
      rewrite decide_False by done. by apply Hoth.
    + rewrite listenersOf_remove, decide_True by done.
      rewrite Hupd, app_nil_r. simpl.
      apply (filter_remove_last h _ (nextId w0)); [|done].
      intros l Hl. by eapply w0_allocated.
    + split; [done|by left].
  - split; simpl; [done..| |].
    + by rewrite Hupd.
    + split; [done|by left].
Qed.

Lemma effect_inv (historyIsLoading : bool) (r : FnId) (w : World) :
  subscriptionInv w0 None (unmounted, w) →
  subscriptionInv w0 (if historyIsLoading then None else Some r)
    (mkSlot (Some (historyIsLoading, r)) (subscriptionEffect historyIsLoading r w).2,
     (subscriptionEffect historyIsLoading r w).1).
Proof.
  intros [Halloc Hnext Hoth Hupd _]. simpl in *. rewrite app_nil_r in Hupd.
  unfold subscriptionEffect. destruct historyIsLoading; simpl.
  - split; simpl; [done..| |].
    + by rewrite app_nil_r.
    + split; [done|]. right. by exists r.
  - assert (Hfresh :
      existsb (sameObject (mkListener (nextId w) (ConversationHandler r)))
        (listenersOf "conversation.updated" (bus w)) = false).
    { apply (existsb_fresh _ _ (nextId w)); [|simpl; lia].
      intros l Hl. by eapply Halloc. }
    split; simpl.
    + unfold allocated. simpl. intros n l. rewrite listenersOf_add.
      destruct (decide _) as [->|].
      * rewrite Hfresh, elem_of_app, list_elem_of_singleton.
        intros [Hl| ->]; [|simpl; lia].
        apply Halloc in Hl. lia.
      * intros Hl%Halloc. lia.
    + lia.
    + intros n Hn. rewrite listenersOf_add, decide_False by done. by apply Hoth.
    + rewrite listenersOf_add, decide_True by done. by rewrite Hfresh, Hupd.
    + eexists. split_and!; [done|done|simpl; lia|simpl; lia|done].
Qed.

Lemma sameDeps_true d (historyIsLoading : bool) (r : FnId) :
  sameDeps d historyIsLoading r = true ↔ d = Some (historyIsLoading, r).
Proof.
  unfold sameDeps. destruct d as [[l r']|]; [|done].
  rewrite andb_true_iff, Bool.eqb_true_iff, Nat.eqb_eq.
  split; [by intros [-> ->]|by intros [= -> ->]].
Qed.

Lemma commit_inv cur (historyIsLoading : bool) (r : FnId) s :
  subscriptionInv w0 cur s →
  subscriptionInv w0 (if historyIsLoading then None else Some r)
    (commit historyIsLoading r s).
Proof.
  intros Hinv. unfold commit.
  destruct (sameDeps _ _ _) eqn:Hsame.
  - apply sameDeps_true in Hsame.
    destruct Hinv as [? ? ? ? Hslot]. split; try done.
    destruct cur as [r'|]; simpl in Hslot.
    + destruct Hslot as (h & Hc & Hb & Hlid & Hdeps).
      rewrite Hdeps in Hsame. simplify_eq. simpl. by exists h.
    + destruct Hslot as [Hc [Hd|[r' Hd]]]; rewrite Hd in Hsame; simplify_eq.
      simpl. split; [done|]. right. by exists r.
  - apply unmount_inv in Hinv. unfold unmount in Hinv.
    apply (effect_inv historyIsLoading r) in Hinv.
    by destruct (subscriptionEffect _ _ _).
Qed.

Lemma subscribedAfter_cons st steps cur :
  subscribedAfter (st :: steps) cur = subscribedAfter steps (subscribedAfter [st] cur).
Proof. destruct st as [[] r| |]; done. Qed.

Lemma subscribedAfter_app steps1 steps2 cur :
  subscribedAfter (steps1 ++ steps2) cur = subscribedAfter steps2 (subscribedAfter steps1 cur).
Proof.
  revert cur. induction steps1 as [|st steps1 IH]; intros cur; [done|].
  simpl app. rewrite subscribedAfter_cons, IH. by rewrite <- subscribedAfter_cons.
Qed.

Lemma step_inv cur st s :
  subscriptionInv w0 cur s → subscriptionInv w0 (subscribedAfter [st] cur) (step st s).1.
Proof.
  intros Hinv. destruct st as [l r| |n ev]; simpl.
  - destruct l.
    + exact (commit_inv cur true r s Hinv).
    + exact (commit_inv cur false r s Hinv).
  - by apply (unmount_inv cur).
  - done.
Qed.

Lemma run_cons st steps s :
  run (st :: steps) s = ((run steps (step st s).1).1, (step st s).2 ++ (run steps (step st s).1).2).
Proof. simpl. destruct (step st s) as [s1 c1]. simpl. by destruct (run steps s1). Qed.

Lemma run_app steps1 steps2 s :
  run (steps1 ++ steps2) s
  = ((run steps2 (run steps1 s).1).1, (run steps1 s).2 ++ (run steps2 (run steps1 s).1).2).
Proof.
  revert s. induction steps1 as [|st steps1 IH]; intros s.
  - simpl. by destruct (run steps2 s).
  - simpl. destruct (step st s) as [s1 calls1]. rewrite IH.
    destruct (run steps1 s1) as [s2 calls2]. simpl.
    by rewrite app_assoc.
Qed.

Lemma run_inv cur steps s :
  subscriptionInv w0 cur s → subscriptionInv w0 (subscribedAfter steps cur) (run steps s).1.
Proof.
  revert cur s. induction steps as [|st steps IH]; intros cur s Hinv; [done|].
  rewrite run_cons, subscribedAfter_cons. simpl. by apply IH, step_inv.
Qed.

(** In a state that satisfies the invariant the listeners added since the
    start are the slot's handler, if any. *)
Lemma ownHandlers_inv cur s :
  subscriptionInv w0 cur s → ownHandlers w0 s.2 = option_list (slotCleanup s.1).
Proof.
  intros [Halloc Hnext Hoth Hupd Hslot]. unfold ownHandlers.
  rewrite Hupd, List.filter_app.
  rewrite (filter_old _ (nextId w0)) by (intros l; apply w0_allocated).
  simpl.
  destruct cur as [r|]; simpl in Hslot.
  - destruct Hslot as (h & -> & _ & Hlid & _). simpl.
    destruct (Nat.leb_spec (nextId w0) (lid h)); [done|lia].
  - by destruct Hslot as [-> _].
Qed.

Lemma ownHandlers_subscribed cur s :
  subscriptionInv w0 cur s →
  match cur with
  | Some r => ∃ h, ownHandlers w0 s.2 = [h] ∧ body h = ConversationHandler r
  | None => ownHandlers w0 s.2 = []
  end.
Proof.
  intros Hinv. rewrite (ownHandlers_inv cur) by done.
  destruct Hinv as [_ _ _ _ Hslot].
  destruct cur as [r|]; simpl in Hslot.
  - destruct Hslot as (h & -> & Hb & _). by exists h.
  - by destruct Hslot as [-> _].
Qed.

(** An event reaches the listeners of the start and, when subscribed, the
    one handler of the view. *)
Lemma emit_inv cur s event :
  subscriptionInv w0 cur s →
  emit "conversation.updated" event (bus s.2)
  = emit "conversation.updated" event (bus w0) ++ ownCalls cur event.
Proof.
  intros [_ _ _ Hupd Hslot]. unfold emit. rewrite Hupd, flat_map_app. f_equal.
  destruct cur as [r|]; simpl in Hslot.
  - destruct Hslot as (h & -> & Hb & _). simpl. unfold invoke. rewrite Hb.
    by rewrite app_nil_r.
  - by destruct Hslot as [-> _].
Qed.

Lemma run_emits cur s (events : list EventSourceMessage) :
  subscriptionInv w0 cur s →
  run (map (Emit "conversation.updated") events) s
  = (s, flat_map (λ event, emit "conversation.updated" event (bus w0) ++ ownCalls cur event)
          events).
Proof.
  intros Hinv. induction events as [|event events IH]; [done|].
  simpl map. rewrite run_cons. simpl step. simpl fst. rewrite IH. simpl.
  by rewrite (emit_inv cur).
Qed.
End SubscriptionFacts.

Lemma busyWorld_allocated : allocated busyWorld.
Proof.
  intros n l. unfold listenersOf, busyWorld. simpl.
  destruct (decide (n = "conversation.updated")) as [->|Hne].
  - rewrite lookup_singleton_eq. simpl.
    intros ->%list_elem_of_singleton. simpl. lia.
  - rewrite lookup_singleton_ne by done. simpl. by intros ?%elem_of_nil.
Qed.

Example sampleSteps_run :
  listenersOf "conversation.updated" (bus (run sampleSteps (unmounted, busyWorld)).1.2)
  = [mkListener 0 (Foreign 7); mkListener 2 (ConversationHandler 6)]
  ∧ (run sampleSteps (unmounted, busyWorld)).2
    = [OtherListener 7 "{}"; RefetchConversation 5].
Proof. by vm_compute. Qed.

(** C4. From the start of a view and through any history of commits,
    unmounts and events, the listeners under ['conversation.updated'] are
    those of the start followed by the handlers this view added, and of
    these there is at most one: exactly one, capturing the committed
    [refetchConversation], when the view is mounted and its last commit had
    [historyIsLoading] false, and none otherwise. So a commit with
    [historyIsLoading] true leaves none, the next commit with it false
    installs one, and an unmount leaves none. *)
Theorem subscription_single_handler (w0 : World) (steps : list Step) :
  allocated w0 →
  let w := (run steps (unmounted, w0)).1.2 in
  listenersOf "conversation.updated" (bus w)
  = listenersOf "conversation.updated" (bus w0) ++ ownHandlers w0 w
  ∧ (length (ownHandlers w0 w) ≤ 1)%nat
  ∧ match subscribedAfter steps None with
    | Some r => ∃ h, ownHandlers w0 w = [h] ∧ body h = ConversationHandler r
    | None => ownHandlers w0 w = []
    end
  ∧ (∀ r, ownHandlers w0 (run (steps ++ [Commit true r]) (unmounted, w0)).1.2 = [])
  ∧ (∀ r, ∃ h, ownHandlers w0 (run (steps ++ [Commit false r]) (unmounted, w0)).1.2 = [h]
               ∧ body h = ConversationHandler r)
  ∧ ownHandlers w0 (run (steps ++ [Unmount]) (unmounted, w0)).1.2 = [].
Proof.
  intros Hw0 w. subst w.
  assert (Hall : ∀ steps', subscriptionInv w0 (subscribedAfter steps' None)
                             (run steps' (unmounted, w0)).1).
  { intros steps'. by apply run_inv, inv_init. }
  pose proof (Hall steps) as Hinv.
  pose proof (ownHandlers_subscribed w0 Hw0 _ _ Hinv) as Hown.
  split_and!.
  - rewrite (ownHandlers_inv w0 Hw0 _ _ Hinv). by destruct Hinv.
  - destruct (subscribedAfter steps None).
    + destruct Hown as (h & -> & _). simpl. lia.
    + rewrite Hown. simpl. lia.
  - done.
  - intros r. pose proof (Hall (steps ++ [Commit true r])) as Hinv'.
    rewrite subscribedAfter_app in Hinv'.
    exact (ownHandlers_subscribed w0 Hw0 _ _ Hinv').
  - intros r. pose proof (Hall (steps ++ [Commit false r])) as Hinv'.
    rewrite subscribedAfter_app in Hinv'.
    exact (ownHandlers_subscribed w0 Hw0 _ _ Hinv').
  - pose proof (Hall (steps ++ [Unmount])) as Hinv'.
    rewrite subscribedAfter_app in Hinv'.
    exact (ownHandlers_subscribed w0 Hw0 _ _ Hinv').
Qed.

Lemma subscription_single_handler_witness :
  allocated busyWorld ∧
  (length (ownHandlers busyWorld (run sampleSteps (unmounted, busyWorld)).1.2) ≤ 1)%nat.
Proof.
  split; [exact busyWorld_allocated|].
  exact (proj1 (proj2 (subscription_single_handler busyWorld sampleSteps
                         busyWorld_allocated))).
Defined.

(** C5. After the view unmounts, every event name has the listeners it had
    at the start: the handlers the view added are gone and nothing else is.
    An event emitted then calls the listeners of the start only, so none of
    the calls is a refetch of this view, and no call at all is made on a bus
    that had no listener. Events never change what is registered: after any
    number of them the state is the same, and each has caused the calls of
    the listeners of the start plus at most one refetch of this view. *)
Theorem unmount_removes_listener
    (w0 : World) (steps : list Step) (events : list EventSourceMessage) :
  allocated w0 →
  let gone := (run (steps ++ [Unmount]) (unmounted, w0)).1 in
  let live := (run steps (unmounted, w0)).1 in
  (∀ eventName, listenersOf eventName (bus gone.2) = listenersOf eventName (bus w0))
  ∧ ownHandlers w0 gone.2 = []
  ∧ (∀ event, step (Emit "conversation.updated" event) gone
              = (gone, emit "conversation.updated" event (bus w0)))
  ∧ (listenersOf "conversation.updated" (bus w0) = [] →
     ∀ event, (step (Emit "conversation.updated" event) gone).2 = [])
  ∧ (run (map (Emit "conversation.updated") events) live).1 = live
  ∧ (run (map (Emit "conversation.updated") events) live).2
    = flat_map (λ event, emit "conversation.updated" event (bus w0)
                         ++ ownCalls (subscribedAfter steps None) event) events
  ∧ (∀ event, length (ownCalls (subscribedAfter steps None) event) ≤ 1)%nat.
Proof.
  intros Hw0 gone live.
  assert (Hgone : subscriptionInv w0 None gone).
  { pose proof (run_inv w0 Hw0 None (steps ++ [Unmount]) _ (inv_init w0 Hw0)) as Hinv.
    by rewrite subscribedAfter_app in Hinv. }
  assert (Hlive : subscriptionInv w0 (subscribedAfter steps None) live).
  { by apply run_inv, inv_init. }
  assert (Hemit : ∀ event, emit "conversation.updated" event (bus gone.2)
                           = emit "conversation.updated" event (bus w0)).
  { intros event. rewrite (emit_inv w0 None gone event Hgone). simpl.
    by rewrite app_nil_r. }
  split_and!.
  - intros n. destruct Hgone as [_ _ Hoth Hupd [Hc _]].
    destruct (decide (n = "conversation.updated")) as [->|Hn]; [|by apply Hoth].
    rewrite Hupd, Hc. simpl. by rewrite app_nil_r.
  - exact (ownHandlers_subscribed w0 Hw0 None gone Hgone).
  - intros event. simpl. by rewrite Hemit.
  - intros Hempty event. simpl. rewrite Hemit. unfold emit. by rewrite Hempty.
  - by rewrite (run_emits w0 _ live events Hlive).
  - by rewrite (run_emits w0 _ live events Hlive).
  - intros event. destruct (subscribedAfter steps None); simpl; lia.
Qed.

Lemma unmount_removes_listener_witness :
  allocated busyWorld ∧
  step (Emit "conversation.updated" sampleEvent)
    (run (sampleSteps ++ [Unmount]) (unmounted, busyWorld)).1
  = ((run (sampleSteps ++ [Unmount]) (unmounted, busyWorld)).1, [OtherListener 7 "{}"]).
Proof.
  split; [exact busyWorld_allocated|].
  exact (proj1 (proj2 (proj2 (unmount_removes_listener busyWorld sampleSteps []
                                busyWorld_allocated))) sampleEvent).
Defined.

(** C3. With the view mounted and subscribed, one ['conversation.updated']
    event calls, besides the listeners of the start, the handler of the view
    once; the handler makes one call of the subscribed [refetchConversation],
    whatever the payload, and leaves the state as it is. That call stands
    for one full fetch each of conversation, message, participant and file
    state, and no partial one. *)
Theorem conversation_updated_refetches_once
    (w0 : World) (steps : list Step) (r : FnId) (event : EventSourceMessage) :
  allocated w0 →
  subscribedAfter steps None = Some r →
  let s := (run steps (unmounted, w0)).1 in
  step (Emit "conversation.updated" event) s
  = (s, emit "conversation.updated" event (bus w0) ++ conversationHandler r event)
  ∧ conversationHandler r event = [RefetchConversation r]
  ∧ (∀ event', conversationHandler r event' = conversationHandler r event)
  ∧ flat_map requestsOf (conversationHandler r event)
    = [FullFetch ConversationState; FullFetch MessageState;
       FullFetch ParticipantState; FullFetch FileState].
Proof.
  intros Hw0 Hsub s.
  assert (Hinv : subscriptionInv w0 (Some r) s).
  { rewrite <- Hsub. by apply run_inv, inv_init. }
  split_and!; [|done..].
  simpl. by rewrite (emit_inv w0 (Some r) s event Hinv).
Qed.

Lemma conversation_updated_refetches_once_witness :
  allocated busyWorld ∧ subscribedAfter sampleSteps None = Some 6%nat ∧
  (step (Emit "conversation.updated" sampleEvent)
     (run sampleSteps (unmounted, busyWorld)).1).2
  = [OtherListener 7 "{}"; RefetchConversation 6].
Proof.
  split; [exact busyWorld_allocated|]. split; [reflexivity|].
  rewrite (proj1 (conversation_updated_refetches_once busyWorld sampleSteps 6%nat
                    sampleEvent busyWorld_allocated eq_refl)).
  reflexivity.
Defined.

(** ** The connector *)
Section ConnectorFacts.
Context {Agent Config ConfigData : Type}.
Variable DefaultAgentConfig : Config.
Variable jsonRoundTrip : ConfigData → Deserialized Config.
Variable createInstance : string → string → Config → option Agent.
Variable startCompletes : Agent → bool.
Variable GetAgent : gmap string Agent → string → option Agent.

Lemma TryAdd_lookup (Agents : gmap string Agent) agentId agent :
  Agents !! agentId = None → TryAdd agentId agent Agents !! agentId = Some agent.
Proof. intros Hnone. unfold TryAdd. rewrite Hnone. apply lookup_insert_eq. Qed.

Lemma CreateAgentAsync_registered (Agents : gmap string Agent) agentId name configData :
  is_Some (GetAgent Agents agentId) →
  CreateAgentAsync DefaultAgentConfig jsonRoundTrip createInstance startCompletes GetAgent
    Agents agentId name configData
  = (Agents, [], RanToCompletion).
Proof. intros [agent Hget]. unfold CreateAgentAsync. by rewrite Hget. Qed.

(** C10. When [GetAgent(agentId)] is not null, [CreateAgentAsync] completes
    at once: nothing is logged, constructed or started and [Agents] is left
    as it is. With a [GetAgent] that looks the id up in [Agents], a second
    call with the same id, whatever its other arguments, therefore adds
    nothing to what the first call did: same [Agents], same calls, same
    outcome. *)
Theorem CreateAgentAsync_idempotent
    (Agents : gmap string Agent) (agentId : string)
    (name name' : option string) (configData configData' : option ConfigData) :
  (is_Some (GetAgent Agents agentId) →
   CreateAgentAsync DefaultAgentConfig jsonRoundTrip createInstance startCompletes GetAgent
     Agents agentId name configData
   = (Agents, [], RanToCompletion))
  ∧ ((∀ (Agents : gmap string Agent) agentId, GetAgent Agents agentId = Agents !! agentId) →
     CreateAgentAsync_twice DefaultAgentConfig jsonRoundTrip createInstance startCompletes
       GetAgent Agents agentId name configData name' configData'
     = CreateAgentAsync DefaultAgentConfig jsonRoundTrip createInstance startCompletes
         GetAgent Agents agentId name configData).
Proof.
  split; [apply CreateAgentAsync_registered|].
  intros Hget. unfold CreateAgentAsync_twice.
  destruct (GetAgent Agents agentId) as [agent|] eqn:Hreg.
  - rewrite !CreateAgentAsync_registered by (by rewrite Hreg). done.
  - unfold CreateAgentAsync at 1 3. rewrite Hreg.
    destruct (match configData with
              | Some data => _
              | None => _
              end) as [config|]; [|done].
    destruct (createInstance _ _ _) as [agent|]; [|done].
    destruct (startCompletes agent); [|done].
    rewrite CreateAgentAsync_registered.
    + by rewrite app_nil_r.
    + rewrite Hget, TryAdd_lookup; [done|]. by rewrite <- Hget.
Qed.
End ConnectorFacts.

Example sampleCreate_once :
  sampleCreate ∅ "agent-1" None (Some 3%nat)
  = ({[ "agent-1" := ("agent-1", "agent-1", 3%nat) ]},
     [LogDebug "Creating agent 'agent-1'"; CreateInstance "agent-1" "agent-1";
      StartAsync "agent-1"],
     RanToCompletion).
Proof. reflexivity. Qed.

Lemma CreateAgentAsync_idempotent_witness :
  is_Some (({[ "agent-1" := ("agent-1", "Ann", 3%nat) ]} : gmap string _) !! "agent-1") ∧
  sampleCreate {[ "agent-1" := ("agent-1", "Ann", 3%nat) ]} "agent-1" (Some "Bob") None
  = ({[ "agent-1" := ("agent-1", "Ann", 3%nat) ]}, [], RanToCompletion) ∧
  CreateAgentAsync_twice 0%nat JsonValue (λ i n c, Some (i, n, c)) (λ _, true)
    (λ Agents i, Agents !! i) ∅ "agent-1" None (Some 3%nat) (Some "Bob") None
  = sampleCreate ∅ "agent-1" None (Some 3%nat).
Proof.
  split; [by eexists|]. split.
  - apply (CreateAgentAsync_idempotent 0%nat JsonValue (λ i n c, Some (i, n, c))
             (λ _, true) (λ Agents i, Agents !! i)
             {[ "agent-1" := ("agent-1", "Ann", 3%nat) ]} "agent-1"
             (Some "Bob") None None None).
    by eexists.
  - apply (CreateAgentAsync_idempotent 0%nat JsonValue (λ i n c, Some (i, n, c))
             (λ _, true) (λ Agents i, Agents !! i)
             ∅ "agent-1" None (Some "Bob") (Some 3%nat) None).
    reflexivity.
Defined.

(** * Further properties *)

(** ** The assistants memo beyond the two cases *)
Section ConversationAssistantsMore.
Implicit Types (A : list Assistant.t) (P : list Participant.t) (p : Participant.t).

(** Every participant list is in one of the two cases. *)
Lemma resolvable_or_not A P : allResolvable A P ∨ someUnresolvable A P.
Proof.
  induction P as [|p P [IH|(q & Hin & Hact & Hmiss)]].
  - left. intros p Hin. by apply elem_of_nil in Hin.
  - destruct (isActiveAssistant p) eqn:Hact.
    + destruct (findAssistant A p) as [a|] eqn:Hfind.
      * left. intros q [->|Hin]%elem_of_cons Hq; [|by apply IH].
        apply findAssistant_Some in Hfind. by exists a.
      * right. exists p. split_and!; [left|done|by apply findAssistant_None].
    + left. intros q [->|Hin]%elem_of_cons Hq; [congruence|by apply IH].
  - right. exists q. split_and!; [by right|done..].
Qed.

Lemma resolvable_exclusive A P : allResolvable A P → someUnresolvable A P → False.
Proof.
  intros Hall (p & Hin & Hact & Hmiss).
  destruct (Hall p Hin Hact) as (a & Ha & Hid). by apply (Hmiss a).
Qed.

Lemma assistantsLoop_filter A P results :
  assistantsLoop A (List.filter isActiveAssistant P) results = assistantsLoop A P results.
Proof.
  revert results. induction P as [|p P IH]; intros results; [done|]. simpl.
  destruct (isActiveAssistant p) eqn:Hact; simpl; [|by apply IH].
  rewrite Hact. simpl. destruct (findAssistant A p); [by apply IH|done].
Qed.

Lemma findAssistant_app_l A A' p :
  is_Some (findAssistant A p) → findAssistant (A ++ A') p = findAssistant A p.
Proof.
  unfold findAssistant. induction A as [|a A IH]; simpl.
  - by intros [? ?].
  - destruct (String.eqb (Assistant.id a) (Participant.id p)); [done|apply IH].
Qed.

Lemma assistantsLoop_directory_app A A' P results :
  allResolvable A P →
  assistantsLoop (A ++ A') P results = assistantsLoop A P results.
Proof.
  revert results. induction P as [|p P IH]; intros results Hres; [done|].
  apply allResolvable_cons in Hres as [Hp HP]. simpl.
  destruct (isActiveAssistant p); simpl; [|by apply IH].
  rewrite findAssistant_app_l by auto.
  destruct (findAssistant A p); [by apply IH|done].
Qed.

Lemma allResolvable_perm A P P' : P ≡ₚ P' → allResolvable A P → allResolvable A P'.
Proof. intros Hperm Hall p Hin. apply Hall. by rewrite Hperm. Qed.

Lemma someUnresolvable_perm A P P' :
  P ≡ₚ P' → someUnresolvable A P → someUnresolvable A P'.
Proof.
  intros Hperm (p & Hin & Hrest). exists p. split; [|done]. by rewrite <- Hperm.
Qed.

Lemma resolved_perm A P P' : P ≡ₚ P' → resolved A P ≡ₚ resolved A P'.
Proof. intros Hperm. unfold resolved. by rewrite Hperm. Qed.

Variable localeCompare : string → string → Z.

(** X1. Participants that are inactive or whose role is not ['assistant']
    have no influence on the memo: dropping them from the list changes
    neither its value nor the calls it makes. *)
Theorem conversationAssistants_ignores_others P (assistants : option (list Assistant.t)) :
  conversationAssistants localeCompare (Some (List.filter isActiveAssistant P)) assistants
  = conversationAssistants localeCompare (Some P) assistants.
Proof.
  destruct assistants as [A|]; [|done].
  unfold conversationAssistants. by rewrite assistantsLoop_filter.
Qed.

(** X2. The memo has three outcomes and no other: it makes no call and
    yields an array, or it makes the single call [assistantsRefetch()] and
    yields [undefined]. The latter happens exactly when both lists are
    loaded and some active assistant participant has no directory entry. *)
Theorem conversationAssistants_outcomes
    (conversationParticipants : option (list Participant.t))
    (assistants : option (list Assistant.t)) :
  let r := conversationAssistants localeCompare conversationParticipants assistants in
  ((r.1 = [] ∧ is_Some r.2) ∨ r = ([AssistantsRefetch], None))
  ∧ (r = ([AssistantsRefetch], None) ↔
     ∃ P A, conversationParticipants = Some P ∧ assistants = Some A ∧ someUnresolvable A P)
  ∧ (r.2 = None ↔ r.1 = [AssistantsRefetch]).
Proof.
  intros r. subst r.
  destruct conversationParticipants as [P|], assistants as [A|];
    try (split_and!; [left; by split; [|eexists]
                     | split; [done|by intros (? & ? & ? & ? & _)]
                     | done]).
  unfold conversationAssistants.
  destruct (resolvable_or_not A P) as [Hall|Hmiss].
  - rewrite assistantsLoop_resolved by done. simpl. split_and!.
    + left. by split; [|eexists].
    + split; [done|]. intros (P' & A' & [= <-] & [= <-] & Hmiss).
      by destruct (resolvable_exclusive A P).
    + done.
  - rewrite assistantsLoop_miss by done. split_and!; [by right| |done].
    split; [|done]. intros _. by exists P, A.
Qed.

(** X3. Entries added at the end of the directory do not change the memo
    once every active assistant participant is resolvable: [find] takes the
    first entry with the id. *)
Theorem conversationAssistants_directory_app P A A' :
  allResolvable A P →
  conversationAssistants localeCompare (Some P) (Some (A ++ A'))
  = conversationAssistants localeCompare (Some P) (Some A).
Proof.
  intros Hres. unfold conversationAssistants.
  by rewrite assistantsLoop_directory_app.
Qed.

(** X4. The order of the participant list does not decide the outcome: for
    two orders of the same participants the calls are the same, and the
    values are both [undefined] or are arrays with the same entries. *)
Theorem conversationAssistants_participant_order P P' A :
  P ≡ₚ P' →
  (conversationAssistants localeCompare (Some P) (Some A)).1
  = (conversationAssistants localeCompare (Some P') (Some A)).1
  ∧ match (conversationAssistants localeCompare (Some P) (Some A)).2,
          (conversationAssistants localeCompare (Some P') (Some A)).2 with
    | Some results, Some results' => results ≡ₚ results'
    | None, None => True
    | _, _ => False
    end.
Proof.
  intros Hperm. unfold conversationAssistants.
  destruct (resolvable_or_not A P) as [Hall|Hmiss].
  - rewrite (assistantsLoop_resolved A P), (assistantsLoop_resolved A P')
      by eauto using allResolvable_perm.
    simpl. split; [done|]. rewrite !Array_sort_perm. by apply resolved_perm.
  - rewrite (assistantsLoop_miss A P), (assistantsLoop_miss A P')
      by eauto using someUnresolvable_perm.
    done.
Qed.
End ConversationAssistantsMore.

Lemma conversationAssistants_directory_app_witness :
  conversationAssistants codeUnitCompare (Some scenarioParticipants)
    (Some (scenarioAssistants ++ shadowAssistants))
  = ([], Some [Assistant.mk "a1" "Bravo"]).
Proof.
  rewrite (conversationAssistants_directory_app codeUnitCompare scenarioParticipants
             scenarioAssistants shadowAssistants scenario_allResolvable).
  reflexivity.
Defined.

Lemma conversationAssistants_participant_order_witness :
  (conversationAssistants codeUnitCompare (Some scenarioReordered)
     (Some scenarioAssistants)).1
  = (conversationAssistants codeUnitCompare (Some scenarioParticipants)
       (Some scenarioAssistants)).1.
Proof.
  exact (proj1 (conversationAssistants_participant_order codeUnitCompare
                  scenarioReordered scenarioParticipants scenarioAssistants
                  (perm_swap _ _ _))).
Defined.

(** ** The render function beyond the throws *)

Lemma filter_bool_nil {A} (f : A → bool) (l : list A) :
  List.filter f l = [] ↔ ∀ x, x ∈ l → f x = false.
Proof.
  induction l as [|y l IH]; simpl.
  - split; [|done]. intros _ x Hx. by apply elem_of_nil in Hx.
  - destruct (f y) eqn:Hy.
    + split; [done|]. intros Hall. specialize (Hall y (list_elem_of_here _ _)). congruence.
    + rewrite IH. split.
      * intros Hall x [->|Hx]%elem_of_cons; auto.
      * intros Hall x Hx. apply Hall. by right.
Qed.

Lemma filter_bool_all {A} (f : A → bool) (l : list A) :
  (∀ x, x ∈ l → f x = true) → List.filter f l = l.
Proof.
  induction l as [|y l IH]; intros Hall; simpl; [done|].
  rewrite (Hall y) by left. f_equal. apply IH. intros x Hx. apply Hall. by right.
Qed.




Section ChatMore.
Context {Message File Capabilities HistoryError : Type}.
Variable localeCompare : string → string → Z.
Variable JSON_stringify : HistoryError → string.
Variable sortParticipants : list Participant.t → list Participant.t.
Implicit Types (h : @HistoryUtility Message File Capabilities HistoryError).



(** X6. Whatever makes the render throw, the message names the
    conversation: the conversation id occurs in it. *)
Theorem Chat_throw_names_conversation conversationId localUserId h message :
  (Chat localeCompare JSON_stringify sortParticipants conversationId localUserId h).2
  = Throws message →
  contains message conversationId.
Proof.
  unfold Chat, contains. destruct (historyError h) as [e|].
  - simpl. intros [= <-]. by eexists _, _.
  - destruct (conversationAssistants _ _ _) as [calls memo].
    destruct (historyIsLoading h), (assistantCapabilitiesIsFetching h); simpl; try done.
    destruct (conversation h), (allConversationMessages h), (conversationParticipants h),
      (assistants h), (conversationFiles h); simpl; try done;
      intros [= <-]; by eexists _, _.
Qed.


(** X8. The header shows an avatar group exactly when somebody other than
    the local user takes part. The group holds the other participants in
    the order of [sortParticipants]; it is laid out spread for one of them
    and as a pie for more. *)
Theorem headerAvatars_spec
    (conversationParticipants : list Participant.t) (localUserId : option string) :
  let others := otherParticipants sortParticipants conversationParticipants localUserId in
  (headerAvatars others = None ↔
   ∀ p, p ∈ sortParticipants conversationParticipants → Some (Participant.id p) = localUserId)
  ∧ ∀ layout group, headerAvatars others = Some (layout, group) →
      group = others
      ∧ (layout = Spread ↔ length others = 1%nat)
      ∧ (layout = Pie ↔ (2 ≤ length others)%nat).
Proof.
  intros others. split.
  - transitivity (others = []).
    + unfold headerAvatars. by destruct others as [|? [|? ?]].
    + unfold others, otherParticipants. rewrite filter_bool_nil.
      split; intros Hall p Hp; specialize (Hall p Hp).
      * destruct (decide (Some (Participant.id p) = localUserId)) as [|Hne]; [done|].
        apply isOther_true in Hne. congruence.
      * destruct (isOther localUserId p) eqn:Ho; [|done].
        by apply isOther_true in Ho.
  - intros layout group. unfold headerAvatars.
    destruct others as [|p [|q rest]]; [done|..]; intros [= <- <-]; simpl;
      (split_and!; [done|split; (done || lia)..]).
Qed.

(** X9. When no participant has the local user's id, in particular when no
    local user id is set, [otherParticipants] is the output of
    [sortParticipants] unchanged. *)
Theorem otherParticipants_no_self
    (conversationParticipants : list Participant.t) (localUserId : option string) :
  ((∀ p, p ∈ sortParticipants conversationParticipants →
         Some (Participant.id p) ≠ localUserId) →
   otherParticipants sortParticipants conversationParticipants localUserId
   = sortParticipants conversationParticipants)
  ∧ otherParticipants sortParticipants conversationParticipants None
    = sortParticipants conversationParticipants.
Proof.
  split.
  - intros Hall. unfold otherParticipants. apply filter_bool_all.
    intros p Hp. by apply isOther_true, Hall.
  - unfold otherParticipants. by apply filter_bool_all.
Qed.
End ChatMore.

Example loadedWithMiss_renders :
  Chat codeUnitCompare (λ e, e) (λ ps, ps) "c1" (Some "u1") loadedWithMiss
  = ([AssistantsRefetch],
     View {| readOnly := true; avatarGroup := Some (Pie, missParticipants);
             canvasAssistants := None |}).
Proof. reflexivity. Qed.

Lemma Chat_throw_names_conversation_witness : contains "Conversation files (c1) not found" "c1".
Proof.
  exact (Chat_throw_names_conversation codeUnitCompare (λ e, e) (λ ps, ps) "c1"
           (Some "u1") filesMissing _ eq_refl).
Defined.

Lemma otherParticipants_no_self_witness :
  otherParticipants (λ ps, ps) scenarioParticipants (Some "u9") = scenarioParticipants.
Proof.
  apply (proj1 (otherParticipants_no_self (λ ps, ps) scenarioParticipants (Some "u9"))).
  intros p Hin. apply list_elem_of_In in Hin. simpl in Hin.
  destruct Hin as [<-|[<-|[<-|[]]]]; discriminate.
Defined.


Lemma headerAvatars_spec_witness :
  (2 ≤ length (otherParticipants (λ ps, ps) scenarioParticipants (Some "a1")))%nat.
Proof.
  apply (proj2 (headerAvatars_spec (λ ps, ps) scenarioParticipants (Some "a1")) Pie
           (otherParticipants (λ ps, ps) scenarioParticipants (Some "a1")) eq_refl).
  reflexivity.
Defined.

(** ** The subscription beyond its own handler *)

Lemma sameDeps_refl (historyIsLoading : bool) (r : FnId) :
  sameDeps (Some (historyIsLoading, r)) historyIsLoading r = true.
Proof. by apply sameDeps_true. Qed.

Lemma commit_deps (historyIsLoading : bool) (r : FnId) s :
  slotDeps (commit historyIsLoading r s).1 = Some (historyIsLoading, r).
Proof.
  unfold commit. destruct (sameDeps _ _ _) eqn:Hsame.
  - by apply sameDeps_true.
  - by destruct (subscriptionEffect _ _ _).
Qed.

Lemma commit_idem (historyIsLoading : bool) (r : FnId) s :
  commit historyIsLoading r (commit historyIsLoading r s) = commit historyIsLoading r s.
Proof.
  unfold commit at 1. by rewrite commit_deps, sameDeps_refl.
Qed.

Lemma runCleanup_others cleanup w n :
  n ≠ "conversation.updated" →
  listenersOf n (bus (runCleanup cleanup w)) = listenersOf n (bus w).
Proof.
  intros Hn. destruct cleanup as [h|]; [|done]. simpl.
  by rewrite listenersOf_remove, decide_False.
Qed.

Lemma subscriptionEffect_others (historyIsLoading : bool) (r : FnId) w n :
  n ≠ "conversation.updated" →
  listenersOf n (bus (subscriptionEffect historyIsLoading r w).1) = listenersOf n (bus w).
Proof.
  intros Hn. unfold subscriptionEffect. destruct historyIsLoading; [done|]. simpl.
  by rewrite listenersOf_add, decide_False.
Qed.

Lemma step_others st s n :
  n ≠ "conversation.updated" →
  listenersOf n (bus (step st s).1.2) = listenersOf n (bus s.2).
Proof.
  intros Hn. destruct st as [l r| |m event]; simpl; [| |done].
  - unfold commit. destruct (sameDeps _ _ _); [done|].
    pose proof (subscriptionEffect_others l r (runCleanup (slotCleanup s.1) s.2) n Hn)
      as Heff.
    destruct (subscriptionEffect _ _ _) as [w2 c]. simpl in *.
    by rewrite Heff, runCleanup_others.
  - by apply runCleanup_others.
Qed.

Lemma run_others steps s n :
  n ≠ "conversation.updated" →
  listenersOf n (bus (run steps s).1.2) = listenersOf n (bus s.2).
Proof.
  intros Hn. revert s. induction steps as [|st steps IH]; intros s; [done|].
  rewrite run_cons. simpl. by rewrite IH, step_others.
Qed.

Lemma isUpdated_true n : isUpdated n = true ↔ n = "conversation.updated".
Proof. apply String.eqb_eq. Qed.

Lemma emit_any_inv w0 cur s n event :
  allocated w0 → subscriptionInv w0 cur s →
  emit n event (bus s.2)
  = emit n event (bus w0) ++ (if isUpdated n then ownCalls cur event else []).
Proof.
  intros Hw0 Hinv. destruct (isUpdated n) eqn:Hn.
  - apply isUpdated_true in Hn as ->. by apply emit_inv.
  - rewrite app_nil_r. unfold emit. destruct Hinv as [_ _ Hoth _ _].
    rewrite Hoth; [done|]. intros ->. by rewrite (proj2 (isUpdated_true _)) in Hn.
Qed.

Lemma run_calls_inv w0 cur steps s :
  allocated w0 → subscriptionInv w0 cur s →
  (run steps s).2 = expectedCalls (bus w0) steps cur.
Proof.
  intros Hw0. revert cur s. induction steps as [|st steps IH]; intros cur s Hinv; [done|].
  rewrite run_cons. simpl snd.
  rewrite (IH (subscribedAfter [st] cur)) by (by apply step_inv).
  destruct st as [[] r| |n event]; simpl; try done.
  rewrite (emit_any_inv w0 cur) by done. by rewrite <- app_assoc.
Qed.

Lemma expectedCalls_quiet bus0 steps cur :
  (∀ n, listenersOf n bus0 = []) →
  Forall (λ c, isRefetch c = true) (expectedCalls bus0 steps cur)
  ∧ (length (expectedCalls bus0 steps cur) ≤ length (List.filter isEmitUpdated steps))%nat.
Proof.
  intros Hquiet. revert cur. induction steps as [|st steps IH]; intros cur.
  - split; [constructor|done].
  - destruct st as [[] r| |n event]; simpl; try apply IH.
    unfold emit. rewrite Hquiet. simpl.
    destruct (IH cur) as [Hall Hlen].
    destruct (isUpdated n); simpl; [|by split; [|lia]].
    destruct cur as [r|]; simpl; [|by split; [|lia]].
    split; [by constructor|lia].
Qed.

Lemma run_commit_twice (historyIsLoading : bool) (r : FnId) after s :
  run (Commit historyIsLoading r :: Commit historyIsLoading r :: after) s
  = run (Commit historyIsLoading r :: after) s.
Proof.
  rewrite (run_cons (Commit historyIsLoading r) (Commit historyIsLoading r :: after) s).
  rewrite (run_cons (Commit historyIsLoading r) after s).
  rewrite (run_cons (Commit historyIsLoading r) after (step (Commit historyIsLoading r) s).1).
  simpl. by rewrite commit_idem.
Qed.

(** X10. A render committed with the same [historyIsLoading] and the same
    [refetchConversation] as the one before it changes nothing: the effect
    does not run again, so the registered handler object stays and no new
    one is created. A history with such a commit repeated runs exactly as
    the history without the repetition. *)
Theorem commit_unchanged_deps
    (historyIsLoading : bool) (r : FnId) (s : EffectSlot * World)
    (before after : list Step) :
  commit historyIsLoading r (commit historyIsLoading r s) = commit historyIsLoading r s
  ∧ run (before ++ Commit historyIsLoading r :: Commit historyIsLoading r :: after) s
    = run (before ++ Commit historyIsLoading r :: after) s.
Proof.
  split; [apply commit_idem|].
  by rewrite !run_app, run_commit_twice.
Qed.

(** X11. The view never touches what is registered under another event
    name: from any state and through any history, the listeners under a
    name other than ['conversation.updated'] stay as they were, and an
    event of that name causes the same calls as before. *)
Theorem other_events_untouched
    (steps : list Step) (s : EffectSlot * World) (eventName : string) :
  eventName ≠ "conversation.updated" →
  listenersOf eventName (bus (run steps s).1.2) = listenersOf eventName (bus s.2)
  ∧ ∀ event, emit eventName event (bus (run steps s).1.2) = emit eventName event (bus s.2).
Proof.
  intros Hn. split; [by apply run_others|].
  intros event. unfold emit. by rewrite run_others.
Qed.

Lemma other_events_untouched_witness :
  listenersOf "message.created" (bus (run sampleSteps (unmounted, busyWorld)).1.2)
  = listenersOf "message.created" (bus busyWorld).
Proof.
  apply (other_events_untouched sampleSteps (unmounted, busyWorld) "message.created").
  discriminate.
Defined.

(** X12. The calls of a whole history are those that can be read off the
    steps and the listeners of the start: every event reaches the listeners
    registered under its name at the start, and a ['conversation.updated']
    event reaches in addition the [refetchConversation] of the last commit,
    once, if the view is mounted and that commit had [historyIsLoading]
    false. Handler identities and re-registrations do not show. *)
Theorem run_calls_expected (w0 : World) (steps : list Step) :
  allocated w0 →
  (run steps (unmounted, w0)).2 = expectedCalls (bus w0) steps None.
Proof. intros Hw0. by apply run_calls_inv, inv_init. Qed.

Lemma run_calls_expected_witness :
  (run sampleSteps (unmounted, busyWorld)).2 = [OtherListener 7 "{}"; RefetchConversation 5].
Proof.
  rewrite (run_calls_expected busyWorld sampleSteps busyWorld_allocated).
  reflexivity.
Defined.

(** X13. On a bus with no other listener, everything a history of the view
    calls is a [refetchConversation], and there are no more such calls than
    ['conversation.updated'] events in the history. *)
Theorem run_refetches_bounded (w0 : World) (steps : list Step) :
  (∀ eventName, listenersOf eventName (bus w0) = []) →
  Forall (λ c, isRefetch c = true) (run steps (unmounted, w0)).2
  ∧ (length (run steps (unmounted, w0)).2 ≤ length (List.filter isEmitUpdated steps))%nat.
Proof.
  intros Hquiet.
  assert (Hw0 : allocated w0).
  { intros n l. rewrite Hquiet. by intros ?%elem_of_nil. }
  rewrite (run_calls_inv w0 None steps _ Hw0 (inv_init w0 Hw0)).
  by apply expectedCalls_quiet.
Qed.

Lemma run_refetches_bounded_witness :
  (length (run sampleSteps (unmounted, quietWorld)).2 ≤ 1)%nat.
Proof.
  apply (run_refetches_bounded quietWorld sampleSteps).
  intros n. unfold listenersOf, quietWorld. simpl. by rewrite lookup_empty.
Defined.

(** ** The connector beyond the early return *)
Section ConnectorMore.
Context {Agent Config ConfigData : Type}.
Variable DefaultAgentConfig : Config.
Variable jsonRoundTrip : ConfigData → Deserialized Config.
Variable createInstance : string → string → Config → option Agent.
Variable startCompletes : Agent → bool.
Variable GetAgent : gmap string Agent → string → option Agent.

Implicit Types (Agents : gmap string Agent).

Lemma TryAdd_keeps (Agents : gmap string Agent) agentId agent k a :
  Agents !! k = Some a → TryAdd agentId agent Agents !! k = Some a.
Proof.
  intros Hk. unfold TryAdd. destruct (Agents !! agentId) eqn:Hid; [done|].
  rewrite lookup_insert_ne; [done|]. intros ->. congruence.
Qed.

Lemma TryAdd_lookup_ne (Agents : gmap string Agent) agentId agent k :
  k ≠ agentId → TryAdd agentId agent Agents !! k = Agents !! k.
Proof.
  intros Hk. unfold TryAdd. destruct (Agents !! agentId); [done|].
  by rewrite lookup_insert_ne.
Qed.

(** The call leaves [Agents] alone or ends with [TryAdd]; in the latter
    case everything before it has happened and the task completes. *)
Lemma CreateAgentAsync_cases (Agents : gmap string Agent) agentId name configData :
  let full := [LogDebug ("Creating agent '" +:+ agentId +:+ "'");
               CreateInstance agentId (default agentId name); StartAsync agentId] in
  (∃ calls status, CreateAgentAsync DefaultAgentConfig jsonRoundTrip createInstance
        startCompletes GetAgent
      Agents agentId name configData = (Agents, calls, status)
                   ∧ calls `prefix_of` full
                   ∧ (status = Faulted → GetAgent Agents agentId = None ∧ calls ≠ [])
                   ∧ (status = RanToCompletion → is_Some (GetAgent Agents agentId)))
  ∨ (∃ agent, CreateAgentAsync DefaultAgentConfig jsonRoundTrip createInstance
        startCompletes GetAgent
      Agents agentId name configData
              = (TryAdd agentId agent Agents, full, RanToCompletion)
              ∧ GetAgent Agents agentId = None
              ∧ createInstance agentId (default agentId name)
                  match configData with
                  | None => DefaultAgentConfig
                  | Some data => match jsonRoundTrip data with
                                 | JsonValue newCfg => newCfg
                                 | _ => DefaultAgentConfig
                                 end
                  end = Some agent
              ∧ startCompletes agent = true).
Proof.
  intros full. unfold CreateAgentAsync.
  destruct (GetAgent Agents agentId) as [registered|] eqn:Hget.
  { left. eexists _, _. split_and!; [done|apply prefix_nil|done|by eexists]. }
  assert (Hlog : [LogDebug ("Creating agent '" +:+ agentId +:+ "'")] `prefix_of` full)
    by (by eexists).
  assert (Hcreate : [LogDebug ("Creating agent '" +:+ agentId +:+ "'");
                     CreateInstance agentId (default agentId name)] `prefix_of` full)
    by (by eexists).
  destruct configData as [data|]; [destruct (jsonRoundTrip data) as [| |newCfg]|]; simpl.
  1: { left. eexists _, _. by split_and!. }
  all: destruct (createInstance _ _ _) as [agent|] eqn:Hinst;
    [destruct (startCompletes agent) eqn:Hstart|].
  all: try (right; by exists agent).
  all: left; eexists _, _; by split_and!.
Qed.

(** X14. [CreateAgentAsync] never removes or replaces a registered agent,
    and it changes [Agents] at no other id than the one it is given;
    whatever [GetAgent] answers. *)
Theorem CreateAgentAsync_keeps_agents
    (Agents : gmap string Agent) (agentId : string) (name : option string)
    (configData : option ConfigData) :
  let Agents' := (CreateAgentAsync DefaultAgentConfig jsonRoundTrip createInstance
        startCompletes GetAgent
      Agents agentId name configData).1.1 in
  (∀ k a, Agents !! k = Some a → Agents' !! k = Some a)
  ∧ (∀ k, k ≠ agentId → Agents' !! k = Agents !! k).
Proof.
  intros Agents'. subst Agents'.
  destruct (CreateAgentAsync_cases Agents agentId name configData)
    as [(calls & status & -> & _)|(agent & -> & _)]; simpl; [done|].
  split; [intros k a; apply TryAdd_keeps|intros k; apply TryAdd_lookup_ne].
Qed.

(** X15. The calls of [CreateAgentAsync] are an initial part of: log,
    construct the agent, start it. A faulted task has left [Agents] as it
    was, after at least the log entry; and [Agents] is changed only by a
    task that ran to completion after constructing and starting the agent. *)
Theorem CreateAgentAsync_calls_and_faults
    (Agents : gmap string Agent) (agentId : string) (name : option string)
    (configData : option ConfigData) :
  let r := CreateAgentAsync DefaultAgentConfig jsonRoundTrip createInstance startCompletes GetAgent
      Agents agentId name configData in
  let full := [LogDebug ("Creating agent '" +:+ agentId +:+ "'");
               CreateInstance agentId (default agentId name); StartAsync agentId] in
  r.1.2 `prefix_of` full
  ∧ (r.2 = Faulted → r.1.1 = Agents ∧ r.1.2 ≠ [])
  ∧ (r.1.1 ≠ Agents → r.2 = RanToCompletion ∧ r.1.2 = full).
Proof.
  intros r full. subst r.
  destruct (CreateAgentAsync_cases Agents agentId name configData)
    as [(calls & status & -> & Hpre & Hfault & _)|(agent & -> & _)]; simpl.
  - split_and!; [done| |done]. intros Hs. split; [done|]. by apply Hfault.
  - split_and!; done.
Qed.

(** X16. With a [GetAgent] that looks the id up in [Agents], an agent is
    registered under the id after the call exactly when the task ran to
    completion. *)
Theorem CreateAgentAsync_registers
    (Agents : gmap string Agent) (agentId : string) (name : option string)
    (configData : option ConfigData) :
  (∀ (Agents : gmap string Agent) agentId, GetAgent Agents agentId = Agents !! agentId) →
  (CreateAgentAsync DefaultAgentConfig jsonRoundTrip createInstance startCompletes GetAgent
      Agents agentId name configData).2 = RanToCompletion
  ↔ is_Some ((CreateAgentAsync DefaultAgentConfig jsonRoundTrip createInstance
        startCompletes GetAgent
      Agents agentId name configData).1.1 !! agentId).
Proof.
  intros Hget.
  destruct (CreateAgentAsync_cases Agents agentId name configData)
    as [(calls & status & -> & _ & Hfault & Hran)|(agent & -> & Hnone & _)]; simpl in *.
  - split; [by rewrite <- Hget; auto|]. intros Hsome. destruct status; [done|].
    destruct (Hfault eq_refl) as [Hnone _]. rewrite Hget in Hnone.
    rewrite Hnone in Hsome. by destruct Hsome.
  - split; [|done]. intros _. rewrite Hget in Hnone.
    rewrite TryAdd_lookup by done. by eexists.
Qed.

(** With a [GetAgent] that looks the id up, what a call does to [Agents]
    is to add, under a free id, an agent that depends on the arguments
    only. *)
Lemma create_shape agentId name configData :
  (∀ (Agents : gmap string Agent) agentId, GetAgent Agents agentId = Agents !! agentId) →
  ∃ o : option Agent, ∀ Agents : gmap string Agent,
    (CreateAgentAsync DefaultAgentConfig jsonRoundTrip createInstance startCompletes GetAgent
        Agents agentId name configData).1.1
    = match Agents !! agentId, o with
      | None, Some agent => <[agentId := agent]> Agents
      | _, _ => Agents
      end.
Proof.
  intros Hlookup.
  exists (match (match configData with
                 | None => Some DefaultAgentConfig
                 | Some data => match jsonRoundTrip data with
                                | JsonThrows => None
                                | JsonNull => Some DefaultAgentConfig
                                | JsonValue newCfg => Some newCfg
                                end
                 end) with
          | None => None
          | Some config =>
              match createInstance agentId (default agentId name) config with
              | None => None
              | Some agent => if startCompletes agent then Some agent else None
              end
          end).
  intros Agents. unfold CreateAgentAsync, TryAdd. rewrite Hlookup.
  destruct (Agents !! agentId) eqn:Hget; [done|].
  destruct configData as [data|]; [destruct (jsonRoundTrip data)|]; simpl; try done.
  all: destruct (createInstance _ _ _) as [agent|]; [|done].
  all: by destruct (startCompletes agent).
Qed.

(** X17. With a [GetAgent] that looks the id up, creating agents under two
    different ids leaves the same [Agents] in either order. *)
Theorem CreateAgentAsync_commutes
    (Agents : gmap string Agent) (id1 id2 : string) (name1 name2 : option string)
    (data1 data2 : option ConfigData) :
  (∀ (Agents : gmap string Agent) agentId, GetAgent Agents agentId = Agents !! agentId) →
  id1 ≠ id2 →
  (CreateAgentAsync DefaultAgentConfig jsonRoundTrip createInstance startCompletes GetAgent
      (CreateAgentAsync DefaultAgentConfig jsonRoundTrip createInstance startCompletes GetAgent
      Agents id1 name1 data1).1.1 id2 name2 data2).1.1
  = (CreateAgentAsync DefaultAgentConfig jsonRoundTrip createInstance startCompletes GetAgent
      (CreateAgentAsync DefaultAgentConfig jsonRoundTrip createInstance startCompletes GetAgent
      Agents id2 name2 data2).1.1 id1 name1 data1).1.1.
Proof.
  intros Hlookup Hne.
  destruct (create_shape id1 name1 data1 Hlookup) as [o1 H1].
  destruct (create_shape id2 name2 data2 Hlookup) as [o2 H2].
  rewrite !H1, !H2.
  destruct (Agents !! id1) as [a1|] eqn:Hid1, (Agents !! id2) as [a2|] eqn:Hid2,
    o1 as [agent1|], o2 as [agent2|];
    rewrite ?Hid1, ?Hid2, ?lookup_insert_ne, ?Hid1, ?Hid2 by done; try done.
  by apply insert_insert_ne.
Qed.
End ConnectorMore.

Lemma CreateAgentAsync_keeps_agents_witness :
  (sampleCreate {[ "agent-1" := ("agent-1", "Ann", 3%nat) ]} "agent-2" None None).1.1
    !! "agent-1" = Some ("agent-1", "Ann", 3%nat).
Proof.
  apply (proj1 (CreateAgentAsync_keeps_agents 0%nat JsonValue (λ i n c, Some (i, n, c))
                  (λ _, true) (λ Agents i, Agents !! i)
                  {[ "agent-1" := ("agent-1", "Ann", 3%nat) ]} "agent-2" None None)).
  reflexivity.
Defined.

Lemma CreateAgentAsync_calls_and_faults_witness :
  (CreateAgentAsync 0%nat JsonValue (λ i n c, Some (i, n, c)) (λ _, false)
     (λ Agents i, Agents !! i) ∅ "agent-1" None (Some 3%nat)).1.1
  = (∅ : gmap string (string * string * nat)).
Proof.
  apply (proj1 (proj2 (CreateAgentAsync_calls_and_faults 0%nat JsonValue
                         (λ i n c, Some (i, n, c)) (λ _, false)
                         (λ Agents i, Agents !! i) ∅ "agent-1" None (Some 3%nat)))).
  reflexivity.
Defined.

Lemma CreateAgentAsync_commutes_witness :
  (sampleCreate (sampleCreate ∅ "agent-1" None None).1.1 "agent-2" (Some "Bob") None).1.1
  = (sampleCreate (sampleCreate ∅ "agent-2" (Some "Bob") None).1.1 "agent-1" None None).1.1.
Proof.
  apply (CreateAgentAsync_commutes 0%nat JsonValue (λ i n c, Some (i, n, c)) (λ _, true)
           (λ Agents i, Agents !! i) ∅ "agent-1" "agent-2" None (Some "Bob") None None).
  - reflexivity.
  - discriminate.
Defined.

Lemma CreateAgentAsync_registers_witness :
  is_Some ((sampleCreate ∅ "agent-1" None (Some 3%nat)).1.1 !! "agent-1").
Proof.
  apply (CreateAgentAsync_registers 0%nat JsonValue (λ i n c, Some (i, n, c)) (λ _, true)
           (λ Agents i, Agents !! i) ∅ "agent-1" None (Some 3%nat)).
  - reflexivity.
  - reflexivity.
Defined.
